(** * landtree: corporate structure and land ownership

    A shallow embedding of [land-ownership/landtree.py] and the properties
    of its graph builder, root resolver and tree formatter.

    Python dictionaries keyed by strings are [gmap string _]; lists are
    lists; a raised exception is the [Raise] case of [result].  The two
    recursive functions of the source follow links stored in the data, so
    they recurse on a fuel argument here and answer [OutOfFuel] when it is
    exhausted: a run that needs more fuel than any number is a run that does
    not return. *)

From stdpp Require Import gmap strings list fin_maps pretty.

Set Warnings "-clear-no-such-hyp".

Open Scope string_scope.
Open Scope list_scope.
Open Scope nat_scope.

(** ** Exceptions and results *)

(** The exceptions the source can raise on its own data. *)
Inductive exn : Type :=
  | KeyError        (* d[k] on a missing key *)
  | TypeError       (* a namedtuple built from the wrong number of fields *)
  | StopIteration.  (* next() on an exhausted file *)

Inductive result (A : Type) : Type :=
  | Ok (a : A)
  | Raise (e : exn)
  | OutOfFuel.
Arguments Ok {A} a.
Arguments Raise {A} e.
Arguments OutOfFuel {A}.

#[export] Instance result_ret : MRet result := λ A a, Ok a.
#[export] Instance result_bind : MBind result := λ A B k r,
  match r with
  | Ok a => k a
  | Raise e => Raise e
  | OutOfFuel => OutOfFuel
  end.

#[export] Instance result_fmap : FMap result := λ A B f r,
  match r with
  | Ok a => Ok (f a)
  | Raise e => Raise e
  | OutOfFuel => OutOfFuel
  end.

(** [d[k]]: the value, or [KeyError]. *)
Definition getitem {V} (d : gmap string V) (k : string) : result V :=
  match d !! k with
  | Some v => Ok v
  | None => Raise KeyError
  end.

(** A [for] loop over a list whose body may raise. *)
Fixpoint for_in {St T} (body : St → T → result St) (xs : list T) (st : St)
  : result St :=
  match xs with
  | [] => Ok st
  | x :: rest => st' ← body st x; for_in body rest st'
  end.

(** A [for] loop over a generator: each item is produced when the loop asks
    for it, and producing it may raise. *)
Fixpoint for_gen {St T} (body : St → T → St) (gen : list (result T))
    (st : St) : result St :=
  match gen with
  | [] => Ok st
  | item :: rest => x ← item; for_gen body rest (body st x)
  end.

(** ** class Company *)

Module Company.
Record t : Type := mk {
  id : string;
  _parent_id : option string;
  name : option string;
  children_ids : list string;
}.

(** The [parent_id] property: its getter, and its setter's value
    [None if not new_id else new_id]. *)
Definition parent_id (self : t) : option string := _parent_id self.

Definition parent_id_value (new_id : option string) : option string :=
  match new_id with
  | Some "" => None
  | Some s => Some s
  | None => None
  end.

Definition set_parent_id (self : t) (new_id : option string) : t :=
  mk (id self) (parent_id_value new_id) (name self) (children_ids self).

Definition set_name (self : t) (new_name : option string) : t :=
  mk (id self) (_parent_id self) new_name (children_ids self).

(** [self.children_ids.append(x)] *)
Definition append_child (self : t) (x : string) : t :=
  mk (id self) (_parent_id self) (name self) (children_ids self ++ [x]).

(** [Company(id, parent_id=None, name=None, children_ids=None)] *)
Definition init (id : string) (parent_id name : option string)
    (children_ids : option (list string)) : t :=
  mk id (parent_id_value parent_id) name (default [] children_ids).
End Company.
Arguments Company.parent_id_value : simpl never.

(** ** Named tuples and read_csv *)

(** A class made by [collections.namedtuple]: [structure] is the call of the
    class on the fields of a line, [fields] the tuple a record holds. *)
Class NamedTuple (T : Type) := {
  arity : nat;
  fields : T → list string;
  structure : list string → result T;
}.

(** What Python gives every such class: called on as many fields as its
    arity it builds the record that holds exactly these fields, and on any
    other number of fields it raises [TypeError]. *)
Class NamedTupleLaws (T : Type) `{NamedTuple T} : Prop := {
  structure_ok : ∀ line, length line = arity →
    ∃ rec, structure line = Ok rec ∧ fields rec = line;
  structure_raise : ∀ line, length line ≠ arity →
    structure line = Raise TypeError;
}.

Module company_relation.
Record t : Type := mk { company_id : string; name : string; parent : string }.
End company_relation.

Module company_land.
Record t : Type := mk { land_id : string; company_id : string }.
End company_land.

(** [namedtuple("company_relation", "company_id,name,parent")] *)
#[export] Instance company_relation_type : NamedTuple company_relation.t := {|
  arity := 3;
  fields r := [company_relation.company_id r; company_relation.name r;
               company_relation.parent r];
  structure line :=
    match line with
    | [a; b; c] => Ok (company_relation.mk a b c)
    | _ => Raise TypeError
    end;
|}.

(** [namedtuple("company_land", "land_id,company_id")] *)
#[export] Instance company_land_type : NamedTuple company_land.t := {|
  arity := 2;
  fields r := [company_land.land_id r; company_land.company_id r];
  structure line :=
    match line with
    | [a; b] => Ok (company_land.mk a b)
    | _ => Raise TypeError
    end;
|}.

(** A file is the list of its rows, each row the list of fields that
    [csv.reader] yields for it.  [read_csv] is a generator: it builds the
    item of a row when it is asked for it, and a generator in which an
    exception was raised is finished, so that the list of its items ends
    with the first item that is not a record. *)
Fixpoint read_csv {T} `{NamedTuple T} (file : list (list string))
  : list (result T) :=
  match file with
  | [] => []
  | line :: file =>
      match structure line with
      | Ok record => Ok record :: read_csv file
      | raised => [raised]
      end
  end.

(** [next(data_file)]: the rest of the file after its first row. *)
Definition next_line (data_file : list (list string))
  : result (list (list string)) :=
  match data_file with
  | [] => Raise StopIteration
  | _ :: rest => Ok rest
  end.

(** ** get_company_relations *)

(** The truth value of a string: [""] is false. *)
Definition truthy (s : string) : bool :=
  match s with
  | "" => false
  | _ => true
  end.

(** One turn of the loop of [get_company_relations]: first the parent of the
    record, then the record's own company. *)
Definition get_company_relations_body (result : gmap string Company.t)
    (record : company_relation.t) : gmap string Company.t :=
  let company_id := company_relation.company_id record in
  let parent_key := company_relation.parent record in
  let result :=
    match result !! parent_key with
    | None =>
        if truthy parent_key
        then <[parent_key :=
                 Company.init parent_key None None (Some [company_id])]> result
        else result
    | Some parent =>
        <[parent_key := Company.append_child parent company_id]> result
    end in
  match result !! company_id with
  | None =>
      <[company_id :=
          Company.init company_id (Some parent_key)
            (Some (company_relation.name record)) None]> result
  | Some company =>
      let company :=
        Company.set_name company (Some (company_relation.name record)) in
      let company := Company.set_parent_id company (Some parent_key) in
      <[company_id := company]> result
  end.

(** The loop on a stream of records that are already built. *)
Definition relations_of (records : list company_relation.t)
  : gmap string Company.t :=
  foldl get_company_relations_body ∅ records.

Definition get_company_relations (data_file : list (list string))
  : result (gmap string Company.t) :=
  data_file ← next_line data_file;
  for_gen get_company_relations_body (read_csv data_file) ∅.

(** ** get_land_ownership *)

(** [result[k].append(x)] on a [defaultdict(list)]. *)
Definition get_land_ownership_body (result : gmap string (list string))
    (record : company_land.t) : gmap string (list string) :=
  let k := company_land.company_id record in
  <[k := default [] (result !! k) ++ [company_land.land_id record]]> result.

Definition get_land_ownership (data_file : list (list string))
  : result (gmap string (list string)) :=
  data_file ← next_line data_file;
  for_gen get_land_ownership_body (read_csv data_file) ∅.

(** ** get_root_company_id *)

Fixpoint get_root_company_id (fuel : nat) (company_id : string)
    (companies : gmap string Company.t) : result string :=
  match fuel with
  | 0 => OutOfFuel
  | S fuel =>
      company ← getitem companies company_id;
      match Company.parent_id company with
      | Some parent_id => get_root_company_id fuel parent_id companies
      | None => Ok company_id
      end
  end.

(** ** format_tree *)

(** The string ["\n"] of the source: one line feed. *)
Definition newline : string := String (Ascii.ascii_of_nat 10) "".

(** [n * s] *)
Fixpoint str_mul (n : nat) (s : string) : string :=
  match n with
  | 0 => ""
  | S n => s +:+ str_mul n s
  end.

(** [f"{x}"] for a value that is a string or [None]. *)
Definition fmt_opt (x : option string) : string :=
  match x with
  | Some s => s
  | None => "None"
  end.

(** [f"{n}"] for a natural number. *)
Definition fmt_int (n : nat) : string := pretty n.

Definition indent_of (level : nat) : string :=
  match level with
  | 0 => ""
  | _ => str_mul level "| " +:+ "- "
  end.

(** The line of a company at a level of the tree, without its newline. *)
Definition line_of (level : nat) (company : Company.t) (total_parcels : nat)
  : string :=
  indent_of level +:+ Company.id company +:+ "; "
    +:+ fmt_opt (Company.name company) +:+ "; owner of "
    +:+ fmt_int total_parcels +:+ " land parcels".

(** The body of the loop over [company.children_ids]; [recurse] is the
    recursive call on a child. *)
Definition _format_node_child (recurse : string → result (string * nat))
    (acc : string * nat) (child_id : string) : result (string * nat) :=
  let '(output, total_parcels) := acc in
  '(child_output, child_parcels) ← recurse child_id;
  mret (output +:+ child_output, total_parcels + child_parcels).

Fixpoint _format_node (fuel : nat) (tree : gmap string Company.t)
    (company_land : gmap string (list string))
    (root_company_id target_company_id : string) (level : nat)
  : result (string * nat) :=
  match fuel with
  | 0 => OutOfFuel
  | S fuel =>
      let output := "" in
      let total_parcels :=
        length (default [] (company_land !! root_company_id)) in
      company ← getitem tree root_company_id;
      '(output, total_parcels) ←
        for_in
          (_format_node_child
             (λ child_id, _format_node fuel tree company_land child_id
                            target_company_id (level + 1)))
          (Company.children_ids company) (output, total_parcels);
      let line := line_of level company total_parcels in
      mret (line +:+ newline +:+ output, total_parcels)
  end.

Definition format_tree (fuel : nat) (tree : gmap string Company.t)
    (company_land : gmap string (list string))
    (root_company_id target_company_id : string) : result string :=
  fst <$> _format_node fuel tree company_land root_company_id
            target_company_id 0.

(** ** Vocabulary of the properties *)

(** The records of a stream that are about company [k], and those that name
    [k] as their parent. *)
Definition own_records (rs : list company_relation.t) (k : string)
  : list company_relation.t :=
  filter (λ r, company_relation.company_id r = k) rs.

Definition child_records (rs : list company_relation.t) (k : string)
  : list company_relation.t :=
  filter (λ r, company_relation.parent r = k) rs.

(** What the loop of [get_company_relations] maintains between the graph [g]
    and the records [rs] read so far. *)
Record builder_inv (g : gmap string Company.t)
    (rs : list company_relation.t) : Prop := {
  inv_absent : ∀ k, g !! k = None ↔
    own_records rs k = [] ∧ (k = "" ∨ child_records rs k = []);
  inv_id : ∀ k c, g !! k = Some c → Company.id c = k;
  inv_own : ∀ k c, g !! k = Some c →
    match last (own_records rs k) with
    | Some r => Company.name c = Some (company_relation.name r) ∧
        Company.parent_id c =
          Company.parent_id_value (Some (company_relation.parent r))
    | None => Company.name c = None ∧ Company.parent_id c = None
    end;
  inv_children : ∀ k c, k ≠ "" → g !! k = Some c →
    Company.children_ids c =
      company_relation.company_id <$> child_records rs k;
  inv_children_known : ∀ k c x, g !! k = Some c →
    x ∈ Company.children_ids c → x ∈ company_relation.company_id <$> rs;
}.

(** [parent_link g p k]: company [k] of the graph has parent [p];
    [child_link g x k]: company [k] of the graph lists [x] as a child. *)
Definition parent_link (g : gmap string Company.t) (p k : string) : Prop :=
  ∃ c, g !! k = Some c ∧ Company.parent_id c = Some p.

Definition child_link (g : gmap string Company.t) (x k : string) : Prop :=
  ∃ c, g !! k = Some c ∧ x ∈ Company.children_ids c.

(** Every id listed as a child is a key of the graph. *)
Definition children_closed (g : gmap string Company.t) : Prop :=
  ∀ k c x, g !! k = Some c → x ∈ Company.children_ids c → is_Some (g !! x).

(** [descends g root d k]: [k] is reached from [root] by [d] steps along
    [children_ids]. *)
Inductive descends (g : gmap string Company.t) (root : string)
  : nat → string → Prop :=
  | descends_root : descends g root 0 root
  | descends_child d k c x :
      descends g root d k → g !! k = Some c →
      x ∈ Company.children_ids c → descends g root (S d) x.

(** Concatenation of a list of strings, and occurrence of a block of text
    inside a text. *)
Definition str_concat (l : list string) : string := foldr String.append "" l.

Definition block_in (block text : string) : Prop :=
  ∃ before after, text = before +:+ block +:+ after.

(** [at_line_start block text]: the block occurs in the text at the start
    of a line, that is at the start of the text or right after a newline. *)
Definition at_line_start (block text : string) : Prop :=
  ∃ before after, text = before +:+ block +:+ after ∧
    (before = "" ∨ ∃ s, before = s +:+ newline).

(** ** The script

    The body of [if __name__ == "__main__"]: the rows of the two files and
    the parsed arguments [company_id] and [from_] go in, the text that is
    printed comes out. *)
Definition main (fuel : nat) (company_id : string) (from_ : option string)
    (land_ownership_csv company_relations_csv : list (list string))
  : result string :=
  company_land ← get_land_ownership land_ownership_csv;
  companies ← get_company_relations company_relations_csv;
  root_company_id ←
    (if decide (from_ = Some "root")
     then get_root_company_id fuel company_id companies
     else mret company_id);
  format_tree fuel companies company_land root_company_id company_id.

(** ** Vocabulary of the properties of the whole script *)

(** The loop of [get_land_ownership] on records that are already built. *)
Definition land_of (records : list company_land.t)
  : gmap string (list string) :=
  foldl get_land_ownership_body ∅ records.

(** Every id stored as a parent is a key of the graph. *)
Definition parents_closed (g : gmap string Company.t) : Prop :=
  ∀ k c p, g !! k = Some c → Company.parent_id c = Some p → is_Some (g !! p).

(** A stream of relation records in which every company has one record and
    a non-empty id. *)
Definition one_record_each (rs : list company_relation.t) : Prop :=
  NoDup (company_relation.company_id <$> rs) ∧
  ∀ r, r ∈ rs → company_relation.company_id r ≠ "".

(** [ancestor g r k]: [r] is reached from [k] along the parent links. *)
Inductive ancestor (g : gmap string Company.t) (r : string)
  : string → Prop :=
  | ancestor_self : ancestor g r r
  | ancestor_parent k c p :
      g !! k = Some c → Company.parent_id c = Some p →
      ancestor g r p → ancestor g r k.

(** [depth_is g k n]: the parent links lead from [k] to a company without
    parent in [n] steps. *)
Inductive depth_is (g : gmap string Company.t) : string → nat → Prop :=
  | depth_top k c :
      g !! k = Some c → Company.parent_id c = None → depth_is g k 0
  | depth_below k c p n :
      g !! k = Some c → Company.parent_id c = Some p →
      depth_is g p n → depth_is g k (S n).

(** ** Sample data

    The relation rows of the scenario of the specification, with a record of
    its own for [S1], and the graph and the ownership index of the tests. *)

Definition sample_relations : list company_relation.t :=
  [ company_relation.mk "C1" "Name1" "R1";
    company_relation.mk "C2" "Name2" "S1";
    company_relation.mk "C3" "Name3" "R1";
    company_relation.mk "S1" "Name4" "" ].

Definition sample_land : list company_land.t :=
  [ company_land.mk "T1" "R1";
    company_land.mk "T2" "C1";
    company_land.mk "T3" "R1" ].

(** A rank on the companies of [sample_relations] that is smaller for a
    parent than for its children. *)
Definition sample_rank (k : string) : nat :=
  if decide (k = "R1") then 0 else if decide (k = "S1") then 0 else 1.

Definition company_relations : gmap string Company.t :=
  <["A" := Company.init "A" None (Some "Company A") (Some ["B"])]>
  (<["B" := Company.init "B" (Some "A") (Some "Company B") (Some ["C"])]>
  (<["C" := Company.init "C" (Some "B") (Some "Company C") (Some [])]>
  (<["D" := Company.init "D" None (Some "Company D") (Some ["E"; "X"])]>
  (<["E" := Company.init "E" (Some "D") (Some "Company E") (Some ["F"])]>
  (<["F" := Company.init "F" (Some "E") (Some "Company F") (Some [])]>
  (<["X" := Company.init "X" (Some "D") (Some "Company X") (Some [])]>
   ∅)))))).

Definition company_land : gmap string (list string) :=
  <["A" := ["v"]]>
  (<["C" := ["v"; "v"]]>
  (<["D" := ["v"; "v"; "v"; "v"]]>
  (<["F" := ["v"; "v"; "v"; "v"; "v"; "v"; "v"; "v"]]> ∅))).

(** The height of a company of [company_relations] above the leaves, and its
    depth below the top. *)
Definition height (k : string) : nat :=
  if decide (k = "A") then 2 else if decide (k = "D") then 2
  else if decide (k = "B") then 1 else if decide (k = "E") then 1 else 0.

Definition depth (k : string) : nat :=
  if decide (k = "A") then 0 else if decide (k = "D") then 0
  else if decide (k = "B") then 1 else if decide (k = "E") then 1
  else if decide (k = "X") then 1 else 2.

(** * Properties

    ** The graph builder: what the loop maintains *)

Section builder.
Implicit Types (g : gmap string Company.t) (r : company_relation.t)
  (rs : list company_relation.t) (k : string) (c : Company.t).

Lemma truthy_true s : truthy s = true ↔ s ≠ "".
Proof. destruct s; simpl; split; congruence. Qed.

Lemma truthy_false s : truthy s = false ↔ s = "".
Proof. destruct s; simpl; split; congruence. Qed.

Lemma relations_of_snoc rs r :
  relations_of (rs ++ [r]) = get_company_relations_body (relations_of rs) r.
Proof. unfold relations_of. by rewrite foldl_app. Qed.

Lemma body_dom g r :
  dom (get_company_relations_body g r) =
    dom g ∪ {[company_relation.company_id r]} ∪
    (if truthy (company_relation.parent r)
     then {[company_relation.parent r]} else ∅).
Proof.
  unfold get_company_relations_body.
  destruct (g !! company_relation.parent r) as [p|] eqn:Hp.
  - apply elem_of_dom_2 in Hp.
    destruct (_ !! company_relation.company_id r); rewrite !dom_insert_L;
      destruct (truthy _); set_solver.
  - destruct (truthy _);
    destruct (_ !! company_relation.company_id r); rewrite !dom_insert_L;
      set_solver.
Qed.

Ltac body_cases :=
unfold get_company_relations_body;
repeat match goal with
| |- context [match ?g !! ?k with _ => _ end] =>
    let E := fresh "E" in destruct (g !! k) eqn:E
| |- context [if truthy ?s then _ else _] =>
    let E := fresh "E" in destruct (truthy s) eqn:E
end.

Ltac split_lookups :=
repeat match goal with
| H : <[_:=_]> _ !! _ = Some _ |- _ =>
    apply lookup_insert_Some in H; destruct H as [[? ?]|[? ?]]
| H : <[_:=_]> _ !! _ = None |- _ =>
    apply lookup_insert_None in H; destruct H as [? ?]
end.

Lemma body_ids_are_keys g r :
  (∀ k c, g !! k = Some c → Company.id c = k) →
  ∀ k c, get_company_relations_body g r !! k = Some c → Company.id c = k.
Proof.
  intros Hg k c. body_cases; intros; split_lookups; simplify_eq/=; eauto; by erewrite Hg by eauto.
Qed.

Lemma own_records_snoc rs r k :
  own_records (rs ++ [r]) k =
    own_records rs k ++
      (if decide (company_relation.company_id r = k) then [r] else []).
Proof.
  unfold own_records. by rewrite filter_app.
Qed.

Lemma child_records_snoc rs r k :
  child_records (rs ++ [r]) k =
    child_records rs k ++
      (if decide (company_relation.parent r = k) then [r] else []).
Proof.
  unfold child_records. by rewrite filter_app.
Qed.

Lemma builder_inv_nil : builder_inv ∅ [].
Proof. split; intros *; rewrite ?lookup_empty; naive_solver. Qed.

Lemma builder_inv_snoc g rs r :
  builder_inv g rs →
  builder_inv (get_company_relations_body g r) (rs ++ [r]).
Proof.
  intros [Habs Hid Hown Hch]. split.
  - intros k. rewrite own_records_snoc, child_records_snoc.
    rewrite <- not_elem_of_dom, body_dom.
    rewrite !app_nil, !not_elem_of_union, not_elem_of_dom, Habs.
    destruct (truthy _) eqn:Et;
      [apply truthy_true in Et | apply truthy_false in Et];
      rewrite ?not_elem_of_singleton;
      repeat case_decide; simplify_eq; try set_solver.
  - by apply body_ids_are_keys.
  - unfold Company.parent_id in *.
    intros k c. rewrite own_records_snoc.
    body_cases; intros; split_lookups; simplify_eq/=;
      repeat case_decide; simplify_eq/=;
      rewrite ?last_snoc, ?app_nil_r; eauto.
    all: try match goal with
      | H : _ !! ?k = None |- context [own_records _ ?k] =>
          apply Habs in H; destruct H as [-> _]; done
      end.
    all: try by apply Hown.
  - intros k c Hk. rewrite child_records_snoc.
    body_cases; intros; split_lookups; simplify_eq/=;
      repeat case_decide; simplify_eq/=;
      rewrite ?fmap_app, ?app_nil_r; simpl; eauto.
    all: repeat match goal with
      | H : _ !! _ = None |- _ => apply Habs in H; destruct H as [? [?|?]]
      | H : truthy _ = true |- _ => apply truthy_true in H
      | H : truthy _ = false |- _ => apply truthy_false in H
      | H : ?a = ?b, H' : _ !! ?a = Some _ |- context [child_records _ ?b] =>
          rewrite H in H'
      end; try congruence.
    all: try (erewrite Hch by eauto; done).
    all: try match goal with H : child_records _ _ = [] |- _ => by rewrite H end.
    all: match goal with
      | H : ?a = ?b, H' : child_records _ ?a = [] |- context [child_records _ ?b] =>
          by rewrite <- H, H'
      end.
  - intros k c x. rewrite fmap_app, elem_of_app. simpl.
    rewrite list_elem_of_singleton.
    body_cases; intros; split_lookups; simplify_eq/=;
      repeat match goal with
      | H : _ ∈ _ ++ _ |- _ => apply elem_of_app in H; destruct H
      | H : _ ∈ [_] |- _ => apply list_elem_of_singleton in H
      | H : _ ∈ [] |- _ => by apply elem_of_nil in H
      end; eauto.
Qed.

Lemma relations_of_inv rs : builder_inv (relations_of rs) rs.
Proof.
  induction rs as [|r rs IH] using rev_ind; [apply builder_inv_nil|].
  rewrite relations_of_snoc. by apply builder_inv_snoc.
Qed.

Lemma filter_is_nil {A} (P : A → Prop) `{!∀ x, Decision (P x)} (l : list A) :
  filter P l = [] ↔ ∀ x, x ∈ l → ¬ P x.
Proof.
  induction l as [|a l IH].
  - split; [intros _ x Hx; by apply elem_of_nil in Hx | done].
  - rewrite filter_cons. case_decide.
    + split; [done | intros H'; destruct (H' a); [left | done]].
    + rewrite IH. split.
      * intros Hl x [->|Hx]%elem_of_cons; auto.
      * intros Hl x Hx. apply Hl. by right.
Qed.

Lemma own_records_nil rs k :
  own_records rs k = [] ↔ k ∉ company_relation.company_id <$> rs.
Proof.
  unfold own_records. rewrite filter_is_nil, list_elem_of_fmap.
  naive_solver.
Qed.

Lemma child_records_nil rs k :
  child_records rs k = [] ↔ k ∉ company_relation.parent <$> rs.
Proof.
  unfold child_records. rewrite filter_is_nil, list_elem_of_fmap.
  naive_solver.
Qed.

Lemma last_own_record pre r post :
  company_relation.company_id r ∉ company_relation.company_id <$> post →
  last (own_records (pre ++ r :: post) (company_relation.company_id r)) =
    Some r.
Proof.
  intros Hpost%own_records_nil. unfold own_records in *.
  rewrite filter_app, filter_cons_True by done.
  rewrite Hpost. apply last_snoc.
Qed.

Lemma relations_of_present rs k :
  is_Some (relations_of rs !! k) ↔
    k ∈ company_relation.company_id <$> rs ∨
    (k ≠ "" ∧ k ∈ company_relation.parent <$> rs).
Proof.
  rewrite <- not_eq_None_Some, (inv_absent _ _ (relations_of_inv rs)).
  rewrite own_records_nil, child_records_nil.
  destruct (decide (k ∈ company_relation.company_id <$> rs));
    destruct (decide (k ∈ company_relation.parent <$> rs));
    destruct (decide (k = "")); naive_solver.
Qed.

Lemma parent_id_value_not_empty o : Company.parent_id_value o ≠ Some "".
Proof. by destruct o as [[|a s]|]. Qed.

Lemma parent_id_value_empty : Company.parent_id_value (Some "") = None.
Proof. done. Qed.

Lemma own_record_wins pre r post :
  company_relation.company_id r ∉ company_relation.company_id <$> post →
  ∃ c, relations_of (pre ++ r :: post) !! company_relation.company_id r
         = Some c ∧
       Company.name c = Some (company_relation.name r) ∧
       Company.parent_id c =
         Company.parent_id_value (Some (company_relation.parent r)).
Proof.
  intros Hpost.
  destruct (relations_of (pre ++ r :: post) !! company_relation.company_id r)
    as [c|] eqn:Hc.
  - exists c. split; [done|].
    pose proof (inv_own _ _ (relations_of_inv _) _ _ Hc) as Hown.
    by rewrite last_own_record in Hown.
  - apply eq_None_not_Some in Hc. destruct Hc.
    apply relations_of_present. left. rewrite fmap_app, fmap_cons.
    set_solver.
Qed.
End builder.

(** ** The record reader *)

#[export] Instance company_relation_laws : NamedTupleLaws company_relation.t.
Proof.
  split; intros [|a [|b [|c [|d l]]]] Hlen; simplify_eq/=; eauto.
Qed.

#[export] Instance company_land_laws : NamedTupleLaws company_land.t.
Proof.
  split; intros [|a [|b [|c l]]] Hlen; simplify_eq/=; eauto.
Qed.

Lemma for_gen_raise {St T} (body : St → T → St) (gen : list (result T))
    (st : St) i e :
  gen !! i = Some (Raise e) →
  (∀ j, j < i → ∃ x, gen !! j = Some (Ok x)) →
  for_gen body gen st = Raise e.
Proof.
  revert i st. induction gen as [|item gen IH]; intros i st Hi Hbefore.
  - done.
  - destruct i as [|i]; simpl in *.
    + by injection Hi as ->.
    + destruct (Hbefore 0) as [x Hx]; [lia|]. simpl in Hx.
      injection Hx as ->. simpl. apply (IH i); [done|].
      intros j Hj. apply (Hbefore (S j)). lia.
Qed.






(** ** The graph builder: what the loop gives *)

Lemma for_gen_Ok {St T} (body : St → T → St) (xs : list T) (st : St) :
  for_gen body (Ok <$> xs) st = Ok (foldl body st xs).
Proof. revert st. induction xs as [|x xs IH]; intros st; simpl; [done|apply IH]. Qed.

(** A file whose rows after the header all have three fields is read as the
    stream of the records of these rows. *)
Lemma get_company_relations_records header (rs : list company_relation.t) :
  get_company_relations (header :: (fields <$> rs)) = Ok (relations_of rs).
Proof.
  assert (read_csv (fields <$> rs) = Ok <$> rs) as Hread.
  { induction rs as [|[a b c] rs IH]; [done|]. simpl. f_equal. exact IH. }
  unfold get_company_relations, next_line, mbind, result_bind.
  rewrite Hread. apply for_gen_Ok.
Qed.

(** C10: the keys of the graph are the company ids of the records and their
    non-empty parents; so every id listed in some [children_ids] is a key, and
    an id that no relation record mentions (one that only the land ownership
    data knows) is not a key. *)
Theorem relations_key_set (rs : list company_relation.t) :
  dom (relations_of rs) =
    list_to_set (company_relation.company_id <$> rs) ∪
    list_to_set (filter (λ p, p ≠ "") (company_relation.parent <$> rs))
  ∧ (∀ k c x, relations_of rs !! k = Some c →
       x ∈ Company.children_ids c → x ∈ dom (relations_of rs))
  ∧ (∀ x, x ∉ company_relation.company_id <$> rs →
       x ∉ company_relation.parent <$> rs → relations_of rs !! x = None).
Proof.
  assert (Hdom : dom (relations_of rs) =
    list_to_set (company_relation.company_id <$> rs) ∪
    list_to_set (filter (λ p, p ≠ "") (company_relation.parent <$> rs))).
  { apply set_eq. intros k.
    rewrite elem_of_dom, relations_of_present, elem_of_union.
    rewrite !elem_of_list_to_set, list_elem_of_filter. naive_solver. }
  split; [done|]. split.
  - intros k c x Hk Hx. rewrite Hdom, elem_of_union, elem_of_list_to_set.
    left. eapply inv_children_known; [apply relations_of_inv|done..].
  - intros x Hx Hp. apply not_elem_of_dom.
    rewrite Hdom, elem_of_union, !elem_of_list_to_set, list_elem_of_filter.
    naive_solver.
Qed.

Lemma relations_key_set_witness :
  "C1" ∈ dom (relations_of sample_relations) ∧
  relations_of sample_relations !! "T1" = None.
Proof.
  destruct (relations_key_set sample_relations) as (_ & Hch & Habs). split.
  - apply (Hch "R1" (Company.mk "R1" None None ["C1"; "C3"]) "C1").
    + vm_compute. reflexivity.
    + left.
  - apply Habs; vm_compute; intros H;
      repeat (apply elem_of_cons in H as [H|H]; [discriminate|]);
      by apply elem_of_nil in H.
Defined.

(** C3, as stated, fails: a record whose own [company_id] field is empty
    makes [""] a key of the graph. *)
Lemma empty_company_id_is_a_key :
  ¬ (∀ k, k ∈ dom (relations_of [company_relation.mk "" "Nameless Ltd" ""]) →
          k ≠ "").
Proof.
  intros H. apply (H ""); [|done].
  apply elem_of_dom. vm_compute. eauto.
Qed.

(** C3, amended: the empty string is not a key of the graph when no record
    has an empty [company_id], and only then.  Whatever the records: a
    record with an empty parent field adds no key but its own company; no
    company of the graph has [parent_id] equal to [""]; and a company whose
    last record has an empty parent field ends with an absent
    [parent_id]. *)
Theorem no_empty_key (rs : list company_relation.t) :
  (relations_of rs !! "" = None ↔
     ∀ r, r ∈ rs → company_relation.company_id r ≠ "")
  ∧ (∀ g r, company_relation.parent r = "" →
       dom (get_company_relations_body g r) =
         dom g ∪ {[company_relation.company_id r]})
  ∧ (∀ k c, relations_of rs !! k = Some c → Company.parent_id c ≠ Some "")
  ∧ (∀ pre r post, rs = pre ++ r :: post →
       company_relation.parent r = "" →
       company_relation.company_id r ∉ company_relation.company_id <$> post →
       ∃ c, relations_of rs !! company_relation.company_id r = Some c ∧
            Company.parent_id c = None).
Proof.
  split; [|split; [|split]].
  - rewrite (inv_absent _ _ (relations_of_inv rs)), own_records_nil.
    rewrite list_elem_of_fmap. split.
    + intros [Hnot _] r Hr Hid. apply Hnot. by exists r.
    + intros Hids. split; [|by left]. intros (r & Hid & Hr).
      by apply (Hids r).
  - intros g r Hp. rewrite body_dom, Hp. simpl. set_solver.
  - intros k c Hc.
    pose proof (inv_own _ _ (relations_of_inv rs) _ _ Hc) as Hown.
    destruct (last _) as [r|]; destruct Hown as [_ ->];
      [apply parent_id_value_not_empty | done].
  - intros pre r post -> Hp Hpost.
    destruct (own_record_wins pre r post Hpost) as (c & Hc & _ & Hpar).
    exists c. split; [done|]. by rewrite Hpar, Hp.
Qed.

Lemma no_empty_key_witness :
  relations_of sample_relations !! "" = None ∧
  ∃ c, relations_of sample_relations !! "S1" = Some c ∧
       Company.parent_id c = None.
Proof.
  assert (Hids : ∀ r, r ∈ sample_relations → company_relation.company_id r ≠ "").
  { intros r Hr. unfold sample_relations in Hr.
    repeat (apply elem_of_cons in Hr as [->|Hr]; [discriminate|]).
    by apply elem_of_nil in Hr. }
  destruct (no_empty_key sample_relations) as ([_ Hkey] & _ & _ & Hlast).
  split; [exact (Hkey Hids)|].
  apply (Hlast [company_relation.mk "C1" "Name1" "R1";
                company_relation.mk "C2" "Name2" "S1";
                company_relation.mk "C3" "Name3" "R1"]
               (company_relation.mk "S1" "Name4" "") []).
  - reflexivity.
  - reflexivity.
  - simpl. apply not_elem_of_nil.
Defined.



(** ** The root resolver *)

Section resolver.
Implicit Types (g : gmap string Company.t) (k r p : string) (c : Company.t).

Lemma getitem_Some {V} (d : gmap string V) k v :
  d !! k = Some v → getitem d k = Ok v.
Proof. unfold getitem. by intros ->. Qed.

Lemma getitem_None {V} (d : gmap string V) k :
  d !! k = None → getitem d k = Raise KeyError.
Proof. unfold getitem. by intros ->. Qed.

Lemma get_root_unfold fuel k g :
  get_root_company_id (S fuel) k g =
    match g !! k with
    | None => Raise KeyError
    | Some c =>
        match Company.parent_id c with
        | Some p => get_root_company_id fuel p g
        | None => Ok k
        end
    end.
Proof. simpl. unfold getitem. by destruct (g !! k). Qed.

Lemma get_root_mono fuel fuel' k g :
  fuel ≤ fuel' → get_root_company_id fuel k g ≠ OutOfFuel →
  get_root_company_id fuel' k g = get_root_company_id fuel k g.
Proof.
  revert fuel' k. induction fuel as [|fuel IH]; intros fuel' k Hle Hres.
  - done.
  - destruct fuel' as [|fuel']; [lia|].
    rewrite !get_root_unfold in *.
    destruct (g !! k) as [c|]; [|done].
    destruct (Company.parent_id c) as [p|]; [|done].
    apply IH; [lia|done].
Qed.

Lemma get_root_terminates g k :
  Acc (parent_link g) k → ∃ fuel, get_root_company_id fuel k g ≠ OutOfFuel.
Proof.
  induction 1 as [k _ IH].
  destruct (g !! k) as [c|] eqn:Hk.
  - destruct (Company.parent_id c) as [p|] eqn:Hp.
    + destruct (IH p) as [fuel Hfuel]; [by exists c|].
      exists (S fuel). by rewrite get_root_unfold, Hk, Hp.
    + exists 1. by rewrite get_root_unfold, Hk, Hp.
  - exists 1. by rewrite get_root_unfold, Hk.
Qed.

Lemma get_root_is_root fuel k g r :
  get_root_company_id fuel k g = Ok r →
  ∃ c, g !! r = Some c ∧ Company.parent_id c = None.
Proof.
  revert k. induction fuel as [|fuel IH]; intros k; [done|].
  rewrite get_root_unfold.
  destruct (g !! k) as [c|] eqn:Hk; [|done].
  destruct (Company.parent_id c) as [p|] eqn:Hp; [apply IH|].
  intros [= <-]. eauto.
Qed.

Lemma get_root_of_root fuel k g c :
  g !! k = Some c → Company.parent_id c = None →
  get_root_company_id (S fuel) k g = Ok k.
Proof. intros Hk Hp. by rewrite get_root_unfold, Hk, Hp. Qed.

(** A rank that decreases along the parent links shows that they have no
    cycle. *)
Lemma ranked_parents_acyclic g (rank : string → nat) :
  (∀ k c p, g !! k = Some c → Company.parent_id c = Some p → rank p < rank k) →
  well_founded (parent_link g).
Proof.
  intros Hrank.
  apply (well_founded_lt_compat _ rank). intros p k (c & Hk & Hp). eauto.
Qed.

Lemma self_parent_never_returns fuel :
  get_root_company_id fuel "A"
    {["A" := Company.init "A" (Some "A") (Some "Company A") None]}
  = OutOfFuel.
Proof.
  induction fuel as [|fuel IH]; [done|].
  rewrite get_root_unfold, lookup_singleton_eq. exact IH.
Qed.
End resolver.

(** C9: when the parent links have no cycle, [get_root_company_id] returns
    (a root, or the [KeyError] of a parent that is not in the graph) for
    every company of the graph, given enough fuel; on a graph with a cycle it
    may never return: for a company that is its own parent no fuel is
    enough. *)
Theorem get_root_terminates_iff_acyclic :
  (∀ g k, well_founded (parent_link g) → is_Some (g !! k) →
     ∃ fuel0 res, res ≠ OutOfFuel ∧
       ∀ fuel, fuel0 ≤ fuel → get_root_company_id fuel k g = res)
  ∧ (∃ g k, is_Some (g !! k) ∧
       ∀ fuel, get_root_company_id fuel k g = OutOfFuel).
Proof.
  split.
  - intros g k Hwf _.
    destruct (get_root_terminates g k (Hwf k)) as [fuel0 Hfuel0].
    exists fuel0, (get_root_company_id fuel0 k g). split; [done|].
    intros fuel Hle. by apply get_root_mono.
  - exists {["A" := Company.init "A" (Some "A") (Some "Company A") None]}, "A".
    split; [by rewrite lookup_singleton_eq|].
    apply self_parent_never_returns.
Qed.

Ltac all_companies H :=
  unfold company_relations in H;
  repeat (apply lookup_insert_Some in H as [[<- <-]|[_ H]]);
  [..|by rewrite lookup_empty in H].

Ltac all_elements H :=
  simpl in H;
  repeat (apply elem_of_cons in H as [->|H]); try by apply elem_of_nil in H.

Lemma company_relations_parents_acyclic :
  well_founded (parent_link company_relations).
Proof.
  apply (ranked_parents_acyclic _ depth). intros k c p Hk Hp.
  all_companies Hk; vm_compute in Hp; simplify_eq; vm_compute; lia.
Qed.

(** C8: whatever the graph, [get_root_company_id] returns the id it is given
    when the company has no parent, and the id it returns is its own root;
    when the parent links have no cycle it does return for every company
    of the graph, given enough fuel, and resolving its answer again gives
    the same answer. *)
Theorem get_root_idempotent (g : gmap string Company.t) :
  well_founded (parent_link g) →
  (∀ fuel k c, g !! k = Some c → Company.parent_id c = None →
     get_root_company_id (S fuel) k g = Ok k)
  ∧ (∀ fuel fuel' k r, get_root_company_id fuel k g = Ok r →
       get_root_company_id (S fuel') r g = Ok r)
  ∧ (∀ k, is_Some (g !! k) →
       ∃ fuel0, ∀ fuel, fuel0 ≤ fuel →
         get_root_company_id fuel k g ≠ OutOfFuel ∧
         ∀ r, get_root_company_id fuel k g = Ok r →
              get_root_company_id fuel r g = Ok r).
Proof.
  intros Hwf. split; [|split].
  - intros fuel k c. apply get_root_of_root.
  - intros fuel fuel' k r (c & Hc & Hp)%get_root_is_root.
    by eapply get_root_of_root.
  - intros k _.
    destruct (get_root_terminates g k (Hwf k)) as [fuel0 Hfuel0].
    exists fuel0. intros fuel Hle.
    assert (get_root_company_id fuel k g ≠ OutOfFuel) as Hret.
    { by rewrite (get_root_mono fuel0). }
    split; [done|]. intros r Hr.
    destruct fuel as [|fuel]; [done|].
    apply get_root_is_root in Hr as (c & Hc & Hp).
    by eapply get_root_of_root.
Qed.

Lemma get_root_idempotent_witness :
  get_root_company_id 1 "A" company_relations = Ok "A" ∧
  get_root_company_id 1 "A" company_relations = Ok "A" ∧
  ∃ fuel0, ∀ fuel, fuel0 ≤ fuel →
    get_root_company_id fuel "C" company_relations ≠ OutOfFuel ∧
    ∀ r, get_root_company_id fuel "C" company_relations = Ok r →
         get_root_company_id fuel r company_relations = Ok r.
Proof.
  destruct (get_root_idempotent company_relations
              company_relations_parents_acyclic) as (Hbase & Hidem & Hall).
  split; [|split].
  - apply (Hbase 0 "A" (Company.init "A" None (Some "Company A") (Some ["B"])));
      reflexivity.
  - apply (Hidem 3 0 "C" "A"). vm_compute. reflexivity.
  - apply (Hall "C"). vm_compute. eauto.
Defined.

Lemma get_root_terminates_iff_acyclic_witness :
  ∃ fuel0 res, res ≠ OutOfFuel ∧
    ∀ fuel, fuel0 ≤ fuel → get_root_company_id fuel "F" company_relations = res.
Proof.
  destruct get_root_terminates_iff_acyclic as [Hterm _].
  apply (Hterm company_relations "F").
  - exact company_relations_parents_acyclic.
  - vm_compute. eauto.
Defined.

(** ** The tree formatter *)

Section strings.
Implicit Types (s t u : string).

Lemma str_app_assoc s t u : (s +:+ t) +:+ u = s +:+ t +:+ u.
Proof.
  induction s as [|a s IH]; [done|]. exact (f_equal (String a) IH).
Qed.

Lemma str_app_nil_l s : "" +:+ s = s.
Proof. done. Qed.

Lemma str_app_nil_r s : s +:+ "" = s.
Proof.
  induction s as [|a s IH]; [done|]. exact (f_equal (String a) IH).
Qed.

Lemma str_concat_app (l1 l2 : list string) :
  str_concat (l1 ++ l2) = str_concat l1 +:+ str_concat l2.
Proof.
  induction l1 as [|s l1 IH]; simpl; [done|].
  by rewrite IH, str_app_assoc.
Qed.

Lemma block_in_refl s : block_in s s.
Proof. exists "", "". by rewrite str_app_nil_r. Qed.

Lemma block_in_trans s t u : block_in s t → block_in t u → block_in s u.
Proof.
  intros (b1 & a1 & ->) (b2 & a2 & ->).
  exists (b2 +:+ b1), (a1 +:+ a2). by rewrite !str_app_assoc.
Qed.

Lemma block_in_app_r s t u : block_in s u → block_in s (t +:+ u).
Proof.
  intros (b & a & ->). exists (t +:+ b), a. by rewrite !str_app_assoc.
Qed.

Lemma block_in_app_l s t u : block_in s t → block_in s (t +:+ u).
Proof.
  intros (b & a & ->). exists b, (a +:+ u). by rewrite !str_app_assoc.
Qed.

Lemma block_in_concat s (l : list string) : s ∈ l → block_in s (str_concat l).
Proof.
  induction 1 as [s l|s t l _ IH]; simpl.
  - apply block_in_app_l, block_in_refl.
  - by apply block_in_app_r.
Qed.
End strings.

Section formatter.
Local Arguments _format_node : simpl never.
Context (g : gmap string Company.t) (idx : gmap string (list string)).
Implicit Types (k x tgt : string) (c : Company.t)
  (F : string → result (string * nat)).

Lemma children_loop_Ok F (xs : list string) (rs : list (string * nat)) o n :
  Forall2 (λ x r, F x = Ok r) xs rs →
  for_in (_format_node_child F) xs (o, n) =
    Ok (o +:+ str_concat (rs.*1), n + sum_list (rs.*2)).
Proof.
  intros Hrs. revert o n.
  induction Hrs as [|x [co cp] xs rs Hx _ IH]; intros o n; simpl.
  - by rewrite str_app_nil_r, Nat.add_0_r.
  - rewrite Hx. simpl. rewrite IH. by rewrite str_app_assoc, Nat.add_assoc.
Qed.

Lemma children_loop_inv F (xs : list string) o n o' n' :
  for_in (_format_node_child F) xs (o, n) = Ok (o', n') →
  ∃ rs, Forall2 (λ x r, F x = Ok r) xs rs ∧
        o' = o +:+ str_concat (rs.*1) ∧ n' = n + sum_list (rs.*2).
Proof.
  revert o n. induction xs as [|x xs IH]; intros o n; simpl.
  - intros [= <- <-]. exists []. simpl.
    by rewrite str_app_nil_r, Nat.add_0_r.
  - destruct (F x) as [[co cp]| |] eqn:Hx; simpl; [|done..].
    intros (rs & Hrs & -> & ->)%IH. exists ((co, cp) :: rs). simpl.
    split; [by constructor|]. by rewrite str_app_assoc, Nat.add_assoc.
Qed.

Lemma children_loop_ext F F' (xs : list string) st :
  (∀ x, x ∈ xs → F x ≠ OutOfFuel → F' x = F x) →
  for_in (_format_node_child F) xs st ≠ OutOfFuel →
  for_in (_format_node_child F') xs st = for_in (_format_node_child F) xs st.
Proof.
  revert st. induction xs as [|x xs IH]; intros [o n] Hext; simpl; [done|].
  destruct (F x) as [[co cp]| |] eqn:Hx; simpl; intros Hres.
  - rewrite (Hext x), Hx by (rewrite ?Hx; by try left). simpl.
    apply IH; [|done]. intros y Hy. apply Hext. by right.
  - rewrite (Hext x), Hx by (rewrite ?Hx; by try left). done.
  - done.
Qed.

Lemma children_loop_returns F (xs : list string) st :
  (∀ x, x ∈ xs → F x ≠ OutOfFuel) →
  for_in (_format_node_child F) xs st ≠ OutOfFuel.
Proof.
  revert st. induction xs as [|x xs IH]; intros [o n] HF; simpl; [done|].
  destruct (F x) as [[co cp]| |] eqn:Hx; simpl.
  - apply IH. intros y Hy. apply HF. by right.
  - done.
  - destruct (HF x); [by left|done].
Qed.

Lemma format_node_unfold fuel k tgt level :
  _format_node (S fuel) g idx k tgt level =
    match g !! k with
    | None => Raise KeyError
    | Some c =>
        '(output, total) ←
          for_in
            (_format_node_child
               (λ x, _format_node fuel g idx x tgt (level + 1)))
            (Company.children_ids c) ("", length (default [] (idx !! k)));
        Ok (line_of level c total +:+ newline +:+ output, total)
    end.
Proof.
  change (_format_node (S fuel) g idx k tgt level) with
    (company ← getitem g k;
     '(output, total) ←
       for_in
         (_format_node_child (λ x, _format_node fuel g idx x tgt (level + 1)))
         (Company.children_ids company)
         ("", length (default [] (idx !! k)));
     Ok (line_of level company total +:+ newline +:+ output, total)).
  unfold getitem. by destruct (g !! k).
Qed.

Lemma format_node_mono fuel fuel' k tgt level :
  fuel ≤ fuel' → _format_node fuel g idx k tgt level ≠ OutOfFuel →
  _format_node fuel' g idx k tgt level = _format_node fuel g idx k tgt level.
Proof.
  revert fuel' k level.
  induction fuel as [|fuel IH]; intros fuel' k level Hle Hres; [done|].
  destruct fuel' as [|fuel']; [lia|].
  rewrite !format_node_unfold in *.
  destruct (g !! k) as [c|]; [|done].
  rewrite (children_loop_ext
    (λ x, _format_node fuel g idx x tgt (level + 1))
    (λ x, _format_node fuel' g idx x tgt (level + 1))); [done| |].
  - intros x _ Hx. apply IH; [lia|done].
  - intros Hloop. by rewrite Hloop in Hres.
Qed.

Lemma format_node_terminates k tgt :
  Acc (child_link g) k →
  ∃ fuel, ∀ level, _format_node fuel g idx k tgt level ≠ OutOfFuel.
Proof.
  induction 1 as [k _ IH].
  destruct (g !! k) as [c|] eqn:Hk.
  - assert (∃ fuel, ∀ x level, x ∈ Company.children_ids c →
              _format_node fuel g idx x tgt level ≠ OutOfFuel) as [fuel Hfuel].
    { assert (∀ x, x ∈ Company.children_ids c → child_link g x k) as Hch
        by (intros x Hx; by exists c).
      induction (Company.children_ids c) as [|y ys IHys].
      - exists 0. intros x level Hx. by apply elem_of_nil in Hx.
      - destruct IHys as [f1 Hf1]; [intros x Hx; apply Hch; by right|].
        destruct (IH y) as [f2 Hf2]; [apply Hch; by left|].
        exists (f1 `max` f2). intros x level [->|Hx]%elem_of_cons.
        + rewrite (format_node_mono f2); [done|lia|done].
        + rewrite (format_node_mono f1); [by apply Hf1|lia|by apply Hf1]. }
    exists (S fuel). intros level. rewrite format_node_unfold, Hk.
    pose proof (children_loop_returns
      (λ x, _format_node fuel g idx x tgt (level + 1))
      (Company.children_ids c) ("", length (default [] (idx !! k)))) as Hloop.
    destruct (for_in _ _ _) as [[o n]| |]; [done..|].
    destruct Hloop; [|done]. intros x Hx. by apply Hfuel.
  - exists 1. intros level. by rewrite format_node_unfold, Hk.
Qed.

Lemma format_node_inv fuel k tgt level out total :
  _format_node fuel g idx k tgt level = Ok (out, total) →
  ∃ c rs, g !! k = Some c ∧
    Forall2 (λ x r, _format_node fuel g idx x tgt (level + 1) = Ok r)
      (Company.children_ids c) rs ∧
    total = length (default [] (idx !! k)) + sum_list (rs.*2) ∧
    out = line_of level c total +:+ newline +:+ str_concat (rs.*1).
Proof.
  destruct fuel as [|fuel]; [done|].
  rewrite format_node_unfold. destruct (g !! k) as [c|]; [|done].
  destruct (for_in _ _ _) as [[o n]| |] eqn:Hloop; [|done..].
  simpl. intros [= <- <-].
  apply children_loop_inv in Hloop as (rs & Hrs & -> & ->).
  exists c, rs. split; [done|]. split; [|done].
  eapply Forall2_impl; [exact Hrs|]. cbv beta. intros x r Hx.
  rewrite (format_node_mono fuel); [done|lia|by rewrite Hx].
Qed.

Lemma format_node_descends fuel root tgt out total d k :
  _format_node fuel g idx root tgt 0 = Ok (out, total) →
  descends g root d k →
  ∃ out_k total_k, _format_node fuel g idx k tgt d = Ok (out_k, total_k) ∧
    block_in out_k out.
Proof.
  intros Hroot. induction 1 as [|d k c x _ IH Hk Hx].
  - exists out, total. split; [done|apply block_in_refl].
  - destruct IH as (out_k & total_k & Hfmt & Hblock).
    apply format_node_inv in Hfmt as (c' & rs & Hk' & Hrs & _ & ->).
    simplify_eq.
    apply list_elem_of_lookup in Hx as [i Hi].
    destruct (Forall2_lookup_l _ _ _ _ _ Hrs Hi) as ([ox nx] & Hr & Hfx).
    exists ox, nx. split; [by rewrite Nat.add_1_r in Hfx|].
    eapply block_in_trans; [|exact Hblock].
    apply block_in_app_r, block_in_app_r, block_in_concat.
    apply list_elem_of_lookup. exists i. by rewrite list_lookup_fmap, Hr.
Qed.

Lemma format_node_closed_returns fuel k tgt level :
  children_closed g → is_Some (g !! k) →
  _format_node fuel g idx k tgt level ≠ OutOfFuel →
  ∃ res, _format_node fuel g idx k tgt level = Ok res.
Proof.
  intros Hclosed. revert k level.
  induction fuel as [|fuel IH]; intros k level [c Hk] Hres; [done|].
  rewrite format_node_unfold, Hk in *.
  assert (∃ rs, Forall2
    (λ x r, _format_node fuel g idx x tgt (level + 1) = Ok r)
    (Company.children_ids c) rs) as [rs Hrs].
  { assert (∀ x, x ∈ Company.children_ids c → is_Some (g !! x)) as Hin
      by (intros x Hx; by eapply Hclosed).
    revert Hres. generalize ("", length (default [] (idx !! k))).
    induction (Company.children_ids c) as [|y ys IHys]; intros [o n] Hres.
    - by exists [].
    - simpl in Hres.
      destruct (IH y (level + 1)) as [[oy ny] Hy]; [apply Hin; by left| |].
      { intros Hy. by rewrite Hy in Hres. }
      rewrite Hy in Hres. simpl in Hres.
      destruct (IHys) with (p := (o +:+ oy, n + ny)) as [rs Hrs];
        [intros x Hx; apply Hin; by right|done|].
      exists ((oy, ny) :: rs). by constructor. }
  rewrite (children_loop_Ok _ _ rs) by done. simpl. eauto.
Qed.

End formatter.

Section formatter_blocks.
Local Arguments _format_node : simpl never.
Context (g : gmap string Company.t) (idx : gmap string (list string)).

Lemma children_loop_ext_all (F F' : string → result (string * nat))
    (xs : list string) st :
  (∀ x, F x = F' x) →
  for_in (_format_node_child F) xs st = for_in (_format_node_child F') xs st.
Proof.
  intros Hext. revert st.
  induction xs as [|x xs IH]; intros [o n]; simpl; [done|].
  rewrite Hext. destruct (F' x) as [[co cp]| |]; simpl; [apply IH|done..].
Qed.

Lemma format_node_target fuel k t1 t2 level :
  _format_node fuel g idx k t1 level = _format_node fuel g idx k t2 level.
Proof.
  revert k level. induction fuel as [|fuel IH]; intros k level; [done|].
  rewrite !format_node_unfold. destruct (g !! k) as [c|]; [|done].
  by rewrite (children_loop_ext_all _
    (λ x, _format_node fuel g idx x t2 (level + 1))).
Qed.

Lemma ends_with_newline_concat (p : string) (l : list string) :
  (∃ s, p = s +:+ newline) →
  Forall (λ b, ∃ s, b = s +:+ newline) l →
  ∃ s, p +:+ str_concat l = s +:+ newline.
Proof.
  intros Hp Hl. revert p Hp.
  induction Hl as [|b l [sb ->] _ IH]; intros p Hp; simpl.
  - by rewrite str_app_nil_r.
  - rewrite <- str_app_assoc. apply IH.
    exists (p +:+ sb). by rewrite str_app_assoc.
Qed.

Lemma format_node_ends_with_newline fuel k tgt level out total :
  _format_node fuel g idx k tgt level = Ok (out, total) →
  ∃ s, out = s +:+ newline.
Proof.
  revert k level out total.
  induction fuel as [|fuel IH]; intros k level out total; [done|].
  rewrite format_node_unfold. destruct (g !! k) as [c|]; [|done].
  destruct (for_in _ _ _) as [[o n]| |] eqn:Hloop; [|done..].
  simpl. intros [= <- <-].
  apply children_loop_inv in Hloop as (rs & Hrs & -> & ->).
  rewrite str_app_nil_l, <- str_app_assoc.
  apply ends_with_newline_concat; [by eexists|].
  apply Forall_fmap, Forall_forall. intros [o n] Hin.
  apply list_elem_of_lookup in Hin as [i Hi].
  destruct (Forall2_lookup_r _ _ _ _ _ Hrs Hi) as (x & _ & Hx).
  by eapply IH.
Qed.

(** A rank that decreases from a company to its children shows that the
    children structure has no cycle. *)
Lemma ranked_children_acyclic (rank : string → nat) :
  (∀ k c x, g !! k = Some c → x ∈ Company.children_ids c → rank x < rank k) →
  well_founded (child_link g).
Proof.
  intros Hrank.
  apply (well_founded_lt_compat _ rank). intros x k (c & Hk & Hx). eauto.
Qed.

(** What the output says about every company under the root. *)
Lemma format_tree_blocks fuel root tgt out d k :
  format_tree fuel g idx root tgt = Ok out → descends g root d k →
  ∃ c rs total,
    g !! k = Some c ∧
    Forall2 (λ x r, _format_node fuel g idx x tgt (S d) = Ok r)
      (Company.children_ids c) rs ∧
    total = length (default [] (idx !! k)) + sum_list (rs.*2) ∧
    _format_node fuel g idx k tgt d =
      Ok (line_of d c total +:+ newline +:+ str_concat (rs.*1), total) ∧
    block_in (line_of d c total +:+ newline +:+ str_concat (rs.*1)) out.
Proof.
  unfold format_tree. intros Hout Hdesc.
  destruct (_format_node fuel g idx root tgt 0) as [[o n]| |] eqn:Hroot;
    [|done..].
  simpl in Hout. injection Hout as ->.
  destruct (format_node_descends g idx _ _ _ _ _ _ _ Hroot Hdesc)
    as (out_k & total_k & Hk & Hblock).
  destruct (format_node_inv g idx _ _ _ _ _ _ Hk)
    as (c & rs & Hc & Hrs & -> & ->).
  exists c, rs, (length (default [] (idx !! k)) + sum_list (rs.*2)).
  rewrite Nat.add_1_r in Hrs. done.
Qed.
End formatter_blocks.

Lemma company_relations_children_acyclic :
  well_founded (child_link company_relations).
Proof.
  apply (ranked_children_acyclic _ height). intros k c x Hk Hx.
  all_companies Hk; all_elements Hx; vm_compute; lia.
Qed.

(** Test: test_get_land_ownership *)
Example test_get_land_ownership :
  get_land_ownership
    [ ["land_id"; "company_id"];
      ["T100018863440"; "R590980645905"];
      ["T100030485625"; "C498567266942"];
      ["T10201682101"; "R590980645905"] ]
  = Ok (<["R590980645905" := ["T100018863440"; "T10201682101"]]>
        (<["C498567266942" := ["T100030485625"]]> ∅)).
Proof. vm_compute. reflexivity. Qed.

(** Test: test_get_company_relations__top_level_parent_created_indirectly *)
Example test_top_level_parent_created_indirectly :
  get_company_relations
    [ ["company_id"; "name"; "parent"];
      ["bar"; "Bar Limited"; "foo"];
      ["foo"; "Foo Limited"; ""] ]
  = Ok (<["foo" := Company.mk "foo" None (Some "Foo Limited") ["bar"]]>
        (<["bar" := Company.mk "bar" (Some "foo") (Some "Bar Limited") []]> ∅)).
Proof. vm_compute. reflexivity. Qed.

(** Test: test_get_root_company_id *)
Example test_get_root_company_id :
  get_root_company_id 3 "C" company_relations = Ok "A" ∧
  get_root_company_id 3 "F" company_relations = Ok "D" ∧
  get_root_company_id 3 "D" company_relations = Ok "D".
Proof. vm_compute. auto. Qed.

(** Test: test_format_tree *)
Example test_format_tree :
  format_tree 3 company_relations company_land "A" "C" =
    Ok ("A; Company A; owner of 3 land parcels" +:+ newline +:+
        "| - B; Company B; owner of 2 land parcels" +:+ newline +:+
        "| | - C; Company C; owner of 2 land parcels" +:+ newline).
Proof. vm_compute. reflexivity. Qed.

(** C1: on a graph whose children structure has no cycle, [format_tree] on
    a root of the graph returns given enough fuel ([KeyError] if some child
    is not in the graph, a text otherwise); and in the text, for every
    company [k] under the root, the total shown on the line of [k] is the
    number of parcels the ownership index gives [k] (none if [k] is not in
    it) plus the totals that [_format_node] returns for the children of
    [k]. *)
Theorem format_tree_totals (g : gmap string Company.t)
    (idx : gmap string (list string)) (root tgt : string) :
  well_founded (child_link g) → is_Some (g !! root) →
  ∃ fuel0, ∀ fuel, fuel0 ≤ fuel →
    format_tree fuel g idx root tgt ≠ OutOfFuel ∧
    (children_closed g → ∃ out, format_tree fuel g idx root tgt = Ok out) ∧
    ∀ out, format_tree fuel g idx root tgt = Ok out →
      ∀ d k, descends g root d k →
        ∃ c rs total,
          g !! k = Some c ∧
          Forall2 (λ x r, _format_node fuel g idx x tgt (S d) = Ok r)
            (Company.children_ids c) rs ∧
          total = length (default [] (idx !! k)) + sum_list (rs.*2) ∧
          snd <$> _format_node fuel g idx k tgt d = Ok total ∧
          block_in (line_of d c total +:+ newline) out.
Proof.
  intros Hwf Hroot.
  destruct (format_node_terminates g idx root tgt (Hwf root)) as [fuel0 Hfuel0].
  exists fuel0. intros fuel Hle.
  assert (_format_node fuel g idx root tgt 0 ≠ OutOfFuel) as Hret.
  { rewrite (format_node_mono g idx fuel0); [apply Hfuel0|done|apply Hfuel0]. }
  split; [|split].
  - unfold format_tree. by destruct (_format_node fuel g idx root tgt 0).
  - intros Hclosed.
    destruct (format_node_closed_returns g idx fuel root tgt 0 Hclosed Hroot Hret)
      as [[out total] Hres].
    exists out. unfold format_tree. by rewrite Hres.
  - intros out Hout d k Hdesc.
    destruct (format_tree_blocks g idx _ _ _ _ _ _ Hout Hdesc)
      as (c & rs & total & Hc & Hrs & Htotal & Hk & Hblock).
    exists c, rs, total. repeat split; try done.
    + by rewrite Hk.
    + eapply block_in_trans; [|exact Hblock].
      rewrite <- str_app_assoc. apply block_in_app_l, block_in_refl.
Qed.

Lemma format_tree_totals_witness :
  ∃ fuel0, ∀ fuel, fuel0 ≤ fuel →
    format_tree fuel company_relations company_land "A" "C" ≠ OutOfFuel ∧
    (children_closed company_relations →
     ∃ out, format_tree fuel company_relations company_land "A" "C" = Ok out) ∧
    ∀ out, format_tree fuel company_relations company_land "A" "C" = Ok out →
      ∀ d k, descends company_relations "A" d k →
        ∃ c rs total,
          company_relations !! k = Some c ∧
          Forall2
            (λ x r, _format_node fuel company_relations company_land x "C" (S d)
                    = Ok r)
            (Company.children_ids c) rs ∧
          total = length (default [] (company_land !! k)) + sum_list (rs.*2) ∧
          snd <$> _format_node fuel company_relations company_land k "C" d
            = Ok total ∧
          block_in (line_of d c total +:+ newline) out.
Proof.
  apply (format_tree_totals company_relations company_land "A" "C").
  - exact company_relations_children_acyclic.
  - vm_compute. eauto.
Defined.

Section layout.
Local Arguments _format_node : simpl never.
Context (g : gmap string Company.t) (idx : gmap string (list string)).

Lemma at_line_start_refl (s : string) : at_line_start s s.
Proof. exists "", "". split; [by rewrite str_app_nil_r|by left]. Qed.

Lemma at_line_start_trans (s t u : string) :
  at_line_start s t → at_line_start t u → at_line_start s u.
Proof.
  intros (b1 & a1 & -> & Hb1) (b2 & a2 & -> & Hb2).
  exists (b2 +:+ b1), (a1 +:+ a2). split; [by rewrite !str_app_assoc|].
  destruct Hb1 as [->|[s1 ->]].
  - by rewrite str_app_nil_r.
  - right. exists (b2 +:+ s1). by rewrite str_app_assoc.
Qed.

Lemma str_concat_lookup (l : list string) i b :
  l !! i = Some b →
  str_concat l = str_concat (take i l) +:+ b +:+ str_concat (drop (S i) l).
Proof.
  intros Hi. rewrite <- (take_drop_middle l i b Hi) at 1.
  by rewrite str_concat_app.
Qed.

Lemma format_node_descends_at fuel root tgt out total d k :
  _format_node fuel g idx root tgt 0 = Ok (out, total) →
  descends g root d k →
  ∃ out_k total_k, _format_node fuel g idx k tgt d = Ok (out_k, total_k) ∧
    at_line_start out_k out.
Proof.
  intros Hroot. induction 1 as [|d k c x _ IH Hk Hx].
  - exists out, total. split; [done|apply at_line_start_refl].
  - destruct IH as (out_k & total_k & Hfmt & Hblock).
    apply format_node_inv in Hfmt as (c' & rs & Hk' & Hrs & _ & ->).
    rewrite Hk in Hk'. injection Hk' as <-.
    apply list_elem_of_lookup in Hx as [i Hi].
    destruct (Forall2_lookup_l _ _ _ _ _ Hrs Hi) as ([ox nx] & Hr & Hfx).
    exists ox, nx. split; [by rewrite Nat.add_1_r in Hfx|].
    eapply at_line_start_trans; [|exact Hblock].
    assert (rs.*1 !! i = Some ox) as Hox by (by rewrite list_lookup_fmap, Hr).
    exists ((line_of d c total_k +:+ newline) +:+ str_concat (take i (rs.*1))),
      (str_concat (drop (S i) (rs.*1))).
    split.
    + rewrite (str_concat_lookup _ _ _ Hox) at 1. by rewrite !str_app_assoc.
    + right. apply ends_with_newline_concat; [by eexists|].
      apply Forall_take, Forall_fmap, Forall_forall. intros [o n] Hin.
      apply list_elem_of_lookup in Hin as [j Hj].
      destruct (Forall2_lookup_r _ _ _ _ _ Hrs Hj) as (y & _ & Hy).
      by eapply format_node_ends_with_newline.
Qed.

Lemma format_node_returns_under (P : string → Prop) fuel k tgt level :
  (∀ k c x, P k → g !! k = Some c → x ∈ Company.children_ids c →
            P x ∧ is_Some (g !! x)) →
  P k → is_Some (g !! k) →
  _format_node fuel g idx k tgt level ≠ OutOfFuel →
  ∃ res, _format_node fuel g idx k tgt level = Ok res.
Proof.
  intros Hclosed. revert k level.
  induction fuel as [|fuel IH]; intros k level HP [c Hk] Hres; [done|].
  rewrite format_node_unfold, Hk in *.
  assert (∃ rs, Forall2
    (λ x r, _format_node fuel g idx x tgt (level + 1) = Ok r)
    (Company.children_ids c) rs) as [rs Hrs].
  { assert (∀ x, x ∈ Company.children_ids c → P x ∧ is_Some (g !! x)) as Hin
      by (intros x Hx; by eapply Hclosed).
    revert Hres. generalize ("", length (default [] (idx !! k))).
    induction (Company.children_ids c) as [|y ys IHys]; intros [o n] Hres.
    - by exists [].
    - simpl in Hres.
      destruct (Hin y) as [HPy Hy]; [by left|].
      destruct (IH y (level + 1) HPy Hy) as [[oy ny] Hfy].
      { intros Hfy. by rewrite Hfy in Hres. }
      rewrite Hfy in Hres. simpl in Hres.
      destruct (IHys) with (p := (o +:+ oy, n + ny)) as [rs Hrs];
        [intros x Hx; apply Hin; by right|done|].
      exists ((oy, ny) :: rs). by constructor. }
  rewrite (children_loop_Ok _ _ rs) by done. simpl. eauto.
Qed.
End layout.

(** C2: for every graph and every root of it, a text that [format_tree]
    returns ends with a newline and is the block of the root; and for every
    company [k] under the root, at depth [d], the block of [k] starts a line
    of the text and is made of the line of [k] (no indent at depth 0, [d]
    times ["| "] and then ["- "] at depth [d >= 1], then the id, the name
    and the total), a newline, and the blocks of the children of [k] in the
    order of [children_ids].  A text is returned, given enough fuel, when
    the children under the root form no cycle and are keys of the graph. *)
Theorem format_tree_layout (g : gmap string Company.t)
    (idx : gmap string (list string)) (root tgt : string) :
  is_Some (g !! root) →
  (∀ fuel out, format_tree fuel g idx root tgt = Ok out →
      (∃ s, out = s +:+ newline) ∧
      fst <$> _format_node fuel g idx root tgt 0 = Ok out ∧
      ∀ d k, descends g root d k →
        ∃ c blocks total,
          g !! k = Some c ∧
          Forall2
            (λ x b, fst <$> _format_node fuel g idx x tgt (S d) = Ok b)
            (Company.children_ids c) blocks ∧
          let indent :=
            match d with 0 => "" | S _ => str_mul d "| " +:+ "- " end in
          let block :=
            indent +:+ Company.id c +:+ "; " +:+ fmt_opt (Company.name c)
              +:+ "; owner of " +:+ fmt_int total +:+ " land parcels"
              +:+ newline +:+ str_concat blocks in
          _format_node fuel g idx k tgt d = Ok (block, total) ∧
          at_line_start block out)
  ∧ (Acc (child_link g) root →
     (∀ d k c x, descends g root d k → g !! k = Some c →
                 x ∈ Company.children_ids c → is_Some (g !! x)) →
     ∃ fuel0, ∀ fuel, fuel0 ≤ fuel →
       ∃ out, format_tree fuel g idx root tgt = Ok out).
Proof.
  intros Hroot. split.
  - intros fuel out Hout. split; [|split; [exact Hout|]].
    + unfold format_tree in Hout.
      destruct (_format_node fuel g idx root tgt 0) as [[o n]| |] eqn:Hres;
        [|done..].
      simpl in Hout. injection Hout as ->.
      by eapply format_node_ends_with_newline.
    + intros d k Hdesc. unfold format_tree in Hout.
      destruct (_format_node fuel g idx root tgt 0) as [[o n]| |] eqn:Hres;
        [|done..].
      simpl in Hout. injection Hout as ->.
      destruct (format_node_descends_at g idx _ _ _ _ _ _ _ Hres Hdesc)
        as (out_k & total_k & Hk & Hat).
      destruct (format_node_inv g idx _ _ _ _ _ _ Hk)
        as (c & rs & Hc & Hrs & Htotal & Hout_k).
      exists c, (rs.*1), total_k. split; [done|]. split.
      * apply Forall2_fmap_r. eapply Forall2_impl; [exact Hrs|].
        cbv beta. rewrite Nat.add_1_r. by intros x r ->.
      * cbv zeta.
        assert (line_of d c total_k +:+ newline +:+ str_concat (rs.*1) =
          match d with 0 => "" | S _ => str_mul d "| " +:+ "- " end
            +:+ Company.id c +:+ "; " +:+ fmt_opt (Company.name c)
            +:+ "; owner of " +:+ fmt_int total_k +:+ " land parcels"
            +:+ newline +:+ str_concat (rs.*1)) as <-.
        { unfold line_of, indent_of. by rewrite !str_app_assoc. }
        rewrite <- Hout_k. done.
  - intros Hacc Hclosed.
    destruct (format_node_terminates g idx root tgt Hacc) as [fuel0 Hfuel0].
    exists fuel0. intros fuel Hle.
    assert (_format_node fuel g idx root tgt 0 ≠ OutOfFuel) as Hret.
    { rewrite (format_node_mono g idx fuel0); [apply Hfuel0|done|apply Hfuel0]. }
    destruct (format_node_returns_under g idx
                (λ k, ∃ d, descends g root d k) fuel root tgt 0)
      as [[out total] Hres]; [|by exists 0; constructor|done|done|].
    + intros k c x [d Hd] Hk Hx. split.
      * exists (S d). by econstructor.
      * by eapply Hclosed.
    + exists out. unfold format_tree. by rewrite Hres.
Qed.

Lemma format_tree_layout_witness :
  (∀ fuel out,
     format_tree fuel company_relations company_land "D" "F" = Ok out →
      (∃ s, out = s +:+ newline) ∧
      fst <$> _format_node fuel company_relations company_land "D" "F" 0
        = Ok out ∧
      ∀ d k, descends company_relations "D" d k →
        ∃ c blocks total,
          company_relations !! k = Some c ∧
          Forall2
            (λ x b, fst <$> _format_node fuel company_relations company_land
                              x "F" (S d) = Ok b)
            (Company.children_ids c) blocks ∧
          let indent :=
            match d with 0 => "" | S _ => str_mul d "| " +:+ "- " end in
          let block :=
            indent +:+ Company.id c +:+ "; " +:+ fmt_opt (Company.name c)
              +:+ "; owner of " +:+ fmt_int total +:+ " land parcels"
              +:+ newline +:+ str_concat blocks in
          _format_node fuel company_relations company_land k "F" d
            = Ok (block, total) ∧
          at_line_start block out)
  ∧ ∃ fuel0, ∀ fuel, fuel0 ≤ fuel →
      ∃ out, format_tree fuel company_relations company_land "D" "F" = Ok out.
Proof.
  destruct (format_tree_layout company_relations company_land "D" "F")
    as [Hlayout Hreturns].
  - vm_compute. eauto.
  - split; [exact Hlayout|]. apply Hreturns.
    + exact (company_relations_children_acyclic "D").
    + intros d k c x _ Hk Hx.
      all_companies Hk; all_elements Hx; vm_compute; eauto.
Defined.

(** C5: the target company has no effect on the text, nor on whether
    [format_tree] returns. *)
Theorem format_tree_ignores_target (fuel : nat) (g : gmap string Company.t)
    (idx : gmap string (list string)) (root t1 t2 : string) :
  format_tree fuel g idx root t1 = format_tree fuel g idx root t2.
Proof. unfold format_tree. by rewrite (format_node_target g idx fuel root t1 t2). Qed.

(** C6: looking up a company that is not a key of the graph raises
    [KeyError], in the root resolver and in the tree formatter. *)
Theorem unknown_company (fuel : nat) (g : gmap string Company.t)
    (idx : gmap string (list string)) (k tgt : string) (level : nat) :
  g !! k = None →
  get_root_company_id (S fuel) k g = Raise KeyError ∧
  _format_node (S fuel) g idx k tgt level = Raise KeyError ∧
  format_tree (S fuel) g idx k tgt = Raise KeyError.
Proof.
  intros Hk. unfold format_tree.
  by rewrite get_root_unfold, !format_node_unfold, Hk.
Qed.

Lemma unknown_company_witness :
  get_root_company_id 1 "Z" company_relations = Raise KeyError ∧
  _format_node 1 company_relations company_land "Z" "C" 0 = Raise KeyError ∧
  format_tree 1 company_relations company_land "Z" "C" = Raise KeyError.
Proof.
  apply (unknown_company 0 company_relations company_land "Z" "C" 0).
  vm_compute. reflexivity.
Defined.

(** * Further properties

    ** The ownership index *)

Section land.
Implicit Types (idx : gmap string (list string)) (r : company_land.t)
  (rs : list company_land.t) (k : string).

Lemma land_of_snoc rs r :
  land_of (rs ++ [r]) = get_land_ownership_body (land_of rs) r.
Proof. unfold land_of. by rewrite foldl_app. Qed.

Lemma land_of_lookup rs k :
  land_of rs !! k =
    match filter (λ r, company_land.company_id r = k) rs with
    | [] => None
    | l => Some (company_land.land_id <$> l)
    end.
Proof.
  induction rs as [|r rs IH] using rev_ind; [done|].
  rewrite land_of_snoc, filter_app. unfold get_land_ownership_body.
  rewrite filter_cons, filter_nil.
  destruct (decide (company_land.company_id r = k)) as [->|Hne].
  - rewrite lookup_insert_eq, IH.
    destruct (filter _ rs) as [|a l]; simpl; [done|].
    by rewrite fmap_app.
  - rewrite lookup_insert_ne, IH, app_nil_r by done. done.
Qed.

Lemma get_land_ownership_records header rs :
  get_land_ownership (header :: (fields <$> rs)) = Ok (land_of rs).
Proof.
  assert (read_csv (fields <$> rs) = Ok <$> rs) as Hread.
  { induction rs as [|[a b] rs IH]; [done|]. simpl. f_equal. exact IH. }
  unfold get_land_ownership, next_line, mbind, result_bind.
  rewrite Hread. apply for_gen_Ok.
Qed.
End land.

(** X1: read from a file whose rows after the header have two fields,
    the ownership index maps a company to the land ids of its rows, in the
    order of the file; its keys are the companies that some row names, and
    no key is mapped to an empty list.  The header row is not looked at. *)
Theorem land_index_contents (header : list string) (rs : list company_land.t) :
  ∃ idx, get_land_ownership (header :: (fields <$> rs)) = Ok idx ∧
    ∀ k,
      default [] (idx !! k) =
        company_land.land_id <$>
          filter (λ r, company_land.company_id r = k) rs
      ∧ (is_Some (idx !! k) ↔ k ∈ company_land.company_id <$> rs)
      ∧ idx !! k ≠ Some [].
Proof.
  exists (land_of rs). split; [apply get_land_ownership_records|].
  intros k. rewrite land_of_lookup.
  destruct (filter _ rs) as [|a l] eqn:Hf; simpl.
  - split; [done|]. split; [|done]. split; [by intros [? ?]|].
    intros (r & -> & Hr)%list_elem_of_fmap.
    by apply (filter_nil_not_elem_of _ _ r) in Hf.
  - split; [done|]. split; [|done]. split; [|by eauto].
    intros _. apply list_elem_of_fmap. exists a.
    assert (a ∈ filter (λ r, company_land.company_id r = k) rs) as Ha
      by (rewrite Hf; left).
    apply list_elem_of_filter in Ha as [-> Ha]. done.
Qed.

(** ** The two loaders on files *)

Lemma read_csv_first_bad {St T} `{NamedTupleLaws T} (body : St → T → St)
    (good : list (list string)) (bad : list string)
    (rest : list (list string)) (st : St) :
  Forall (λ line, length line = arity) good →
  length bad ≠ arity →
  for_gen body (read_csv (good ++ bad :: rest)) st = Raise TypeError.
Proof.
  intros Hgood Hbad. revert st.
  induction Hgood as [|line good Hline _ IH]; intros st; simpl.
  - by rewrite structure_raise.
  - destruct (structure_ok line Hline) as (rec & -> & _). simpl. apply IH.
Qed.

(** X2: [get_company_relations] raises [StopIteration] on a file without
    any row; it does not look at the first row; it returns the graph of the
    loop when every other row has three fields; and it raises [TypeError],
    returning no graph, as soon as a row has another number of fields,
    whatever comes after that row. *)
Theorem get_company_relations_on_files :
  get_company_relations [] = Raise StopIteration
  ∧ (∀ header rs,
       get_company_relations (header :: (fields <$> rs)) = Ok (relations_of rs))
  ∧ (∀ header good bad rest,
       Forall (λ line, length line = 3) good → length bad ≠ 3 →
       get_company_relations (header :: good ++ bad :: rest)
         = Raise TypeError).
Proof.
  split; [done|]. split; [apply get_company_relations_records|].
  intros header good bad rest Hgood Hbad.
  unfold get_company_relations. simpl.
  by apply (read_csv_first_bad (T := company_relation.t)).
Qed.

Lemma get_company_relations_on_files_witness :
  get_company_relations
    [ ["company_id"; "name"; "parent"];
      ["bar"; "Bar Limited"; "foo"];
      ["foo"; "Foo Limited"];
      ["baz"; "Baz Limited"; "foo"] ]
  = Raise TypeError.
Proof.
  destruct get_company_relations_on_files as (_ & _ & Hbad).
  apply (Hbad ["company_id"; "name"; "parent"]
              [["bar"; "Bar Limited"; "foo"]] ["foo"; "Foo Limited"]
              [["baz"; "Baz Limited"; "foo"]]).
  - repeat constructor.
  - simpl. lia.
Defined.

(** X3: [get_land_ownership] raises [StopIteration] on a file without any
    row; a file with only a header gives the empty index; and a row that has
    not two fields raises [TypeError] as soon as it is reached, whatever
    comes after it. *)
Theorem get_land_ownership_on_files :
  get_land_ownership [] = Raise StopIteration
  ∧ (∀ header, get_land_ownership [header] = Ok ∅)
  ∧ (∀ header good bad rest,
       Forall (λ line, length line = 2) good → length bad ≠ 2 →
       get_land_ownership (header :: good ++ bad :: rest) = Raise TypeError).
Proof.
  split; [done|]. split; [done|].
  intros header good bad rest Hgood Hbad.
  unfold get_land_ownership. simpl.
  by apply (read_csv_first_bad (T := company_land.t)).
Qed.

Lemma get_land_ownership_on_files_witness :
  get_land_ownership
    [ ["land_id"; "company_id"]; ["T1"; "R1"]; ["T2"]; ["T3"; "R1"] ]
  = Raise TypeError.
Proof.
  destruct get_land_ownership_on_files as (_ & _ & Hbad).
  apply (Hbad ["land_id"; "company_id"] [["T1"; "R1"]] ["T2"] [["T3"; "R1"]]).
  - repeat constructor.
  - simpl. lia.
Defined.

(** ** The graph of a stream of records *)

Section graph.
Implicit Types (g : gmap string Company.t) (r : company_relation.t)
  (rs : list company_relation.t) (k x p : string) (c : Company.t).

Lemma parent_id_value_Some s p :
  Company.parent_id_value (Some s) = Some p → s = p ∧ p ≠ "".
Proof. destruct s as [|a s]; [done|]. by intros [= <-]. Qed.

Lemma parent_id_value_of_nonempty p :
  p ≠ "" → Company.parent_id_value (Some p) = Some p.
Proof. by destruct p. Qed.

(** The parent stored in a node is the parent field of a record. *)
Lemma relations_of_parent_record rs k c p :
  relations_of rs !! k = Some c → Company.parent_id c = Some p →
  p ≠ "" ∧ ∃ r, r ∈ rs ∧ company_relation.company_id r = k ∧
                company_relation.parent r = p.
Proof.
  intros Hk Hp.
  pose proof (inv_own _ _ (relations_of_inv rs) _ _ Hk) as Hown.
  destruct (last (own_records rs k)) as [r|] eqn:Hlast.
  - destruct Hown as [_ Hown]. rewrite Hp in Hown. symmetry in Hown.
    apply parent_id_value_Some in Hown as [Hr Hne]. split; [done|].
    exists r. apply last_Some_elem_of in Hlast.
    apply list_elem_of_filter in Hlast as [? ?]. done.
  - destruct Hown as [_ Hown]. congruence.
Qed.

Lemma relations_of_parent_is_child rs p k :
  parent_link (relations_of rs) p k → child_link (relations_of rs) k p.
Proof.
  intros (c & Hk & Hp).
  destruct (relations_of_parent_record rs k c p Hk Hp)
    as (Hne & r & Hr & Hid & Hpar).
  destruct (relations_of rs !! p) as [cp|] eqn:Hcp.
  - exists cp. split; [done|].
    rewrite (inv_children _ _ (relations_of_inv rs) p cp Hne Hcp).
    apply list_elem_of_fmap. exists r. split; [done|].
    by apply list_elem_of_filter.
  - apply eq_None_not_Some in Hcp. destruct Hcp.
    apply relations_of_present. right. split; [done|].
    apply list_elem_of_fmap. by exists r.
Qed.

Lemma relations_of_parents_closed rs : parents_closed (relations_of rs).
Proof.
  intros k c p Hk Hp.
  destruct (relations_of_parent_is_child rs p k) as (cp & Hcp & _);
    [by exists c|by exists cp].
Qed.

Lemma relations_of_children_closed rs : children_closed (relations_of rs).
Proof.
  intros k c x Hk Hx. apply relations_of_present. left.
  by eapply (inv_children_known _ _ (relations_of_inv rs)).
Qed.

Lemma own_records_unique rs r :
  NoDup (company_relation.company_id <$> rs) → r ∈ rs →
  own_records rs (company_relation.company_id r) = [r].
Proof.
  unfold own_records. induction rs as [|a rs IH]; simpl.
  - intros _ Hr. by apply elem_of_nil in Hr.
  - intros [Ha Hnd]%NoDup_cons [->|Hr]%elem_of_cons.
    + rewrite filter_cons_True by done. f_equal.
      apply filter_is_nil. intros y Hy Heq. apply Ha. rewrite <- Heq.
      apply list_elem_of_fmap. by exists y.
    + rewrite filter_cons_False; [by apply IH|].
      intros Heq. apply Ha. rewrite Heq.
      apply list_elem_of_fmap. by exists r.
Qed.

Lemma one_record_each_empty_absent rs :
  one_record_each rs → relations_of rs !! "" = None.
Proof.
  intros [_ Hids].
  apply (inv_absent _ _ (relations_of_inv rs)). split; [|by left].
  apply own_records_nil. intros (r & Hr & Hin)%list_elem_of_fmap.
  by apply (Hids r).
Qed.

Lemma relations_of_child_is_parent rs x k :
  one_record_each rs →
  child_link (relations_of rs) x k → parent_link (relations_of rs) k x.
Proof.
  intros Hone (c & Hk & Hx).
  assert (k ≠ "") as Hne.
  { intros ->. by rewrite one_record_each_empty_absent in Hk. }
  rewrite (inv_children _ _ (relations_of_inv rs) k c Hne Hk) in Hx.
  apply list_elem_of_fmap in Hx as (r & -> & Hr).
  apply list_elem_of_filter in Hr as [Hpar Hr].
  destruct (relations_of rs !! company_relation.company_id r) as [cx|] eqn:Hcx.
  - exists cx. split; [done|].
    pose proof (inv_own _ _ (relations_of_inv rs) _ _ Hcx) as Hown.
    rewrite (own_records_unique rs r) in Hown by (done || apply Hone).
    simpl in Hown. destruct Hown as [_ ->].
    rewrite Hpar. by apply parent_id_value_of_nonempty.
  - apply eq_None_not_Some in Hcx. destruct Hcx.
    apply relations_of_present. left. apply list_elem_of_fmap. by exists r.
Qed.
End graph.

(** X4: in the graph of any stream of records, the id stored in a node is
    the key of the node, and the children of a node with a non-empty key,
    whether or not the company has a record of its own, are the companies
    of the records that name the key as parent, one per record, in the order
    of the stream. *)
Theorem graph_nodes (rs : list company_relation.t) (k : string)
    (c : Company.t) :
  relations_of rs !! k = Some c →
  Company.id c = k
  ∧ (k ≠ "" →
     Company.children_ids c =
       company_relation.company_id <$>
         filter (λ r, company_relation.parent r = k) rs).
Proof.
  intros Hk. split.
  - by apply (inv_id _ _ (relations_of_inv rs)).
  - intros Hne. by apply (inv_children _ _ (relations_of_inv rs)).
Qed.

Lemma graph_nodes_witness :
  Company.id (Company.mk "S1" None (Some "Name4") ["C2"]) = "S1"
  ∧ ("S1" ≠ "" →
     Company.children_ids (Company.mk "S1" None (Some "Name4") ["C2"]) =
       company_relation.company_id <$>
         filter (λ r, company_relation.parent r = "S1") sample_relations).
Proof.
  apply (graph_nodes sample_relations "S1"). vm_compute. reflexivity.
Defined.

(** X5: in the graph of any stream of records, a company that has a parent
    is listed among the children of that parent; and when every company has
    one record and a non-empty id, a company listed among the children of
    another has that one as its parent. *)
Theorem parents_and_children_agree (rs : list company_relation.t) :
  (∀ p k, parent_link (relations_of rs) p k →
          child_link (relations_of rs) k p)
  ∧ (one_record_each rs →
     ∀ x k, child_link (relations_of rs) x k →
            parent_link (relations_of rs) k x).
Proof.
  split.
  - apply relations_of_parent_is_child.
  - intros Hone x k. by apply relations_of_child_is_parent.
Qed.

Lemma sample_relations_one_record_each : one_record_each sample_relations.
Proof.
  split.
  - apply (bool_decide_unpack _). vm_compute. exact I.
  - intros r Hr. unfold sample_relations in Hr.
    repeat (apply elem_of_cons in Hr as [->|Hr]; [discriminate|]).
    by apply elem_of_nil in Hr.
Qed.

Lemma parents_and_children_agree_witness :
  child_link (relations_of sample_relations) "C2" "S1"
  ∧ parent_link (relations_of sample_relations) "R1" "C3".
Proof.
  destruct (parents_and_children_agree sample_relations) as [Hpc Hcp].
  assert (Hlink : parent_link (relations_of sample_relations) "S1" "C2").
  { exists (Company.mk "C2" (Some "S1") (Some "Name2") []).
    split; vm_compute; reflexivity. }
  split.
  - apply Hpc. exact Hlink.
  - apply (Hcp sample_relations_one_record_each).
    exists (Company.mk "R1" None None ["C1"; "C3"]). split.
    + vm_compute. reflexivity.
    + right. left.
Defined.

Section permutation.
Implicit Types (rs : list company_relation.t) (k : string).

Lemma one_record_each_own_records rs k :
  one_record_each rs →
  own_records rs k = [] ∨ ∃ r, r ∈ rs ∧ own_records rs k = [r].
Proof.
  intros [Hnd _].
  destruct (own_records rs k) as [|r l] eqn:Hown; [by left|right].
  assert (r ∈ own_records rs k) as Hr by (rewrite Hown; left).
  apply list_elem_of_filter in Hr as [<- Hr].
  exists r. split; [done|].
  rewrite <- Hown. by apply own_records_unique.
Qed.

Lemma one_record_each_perm rs rs' :
  rs ≡ₚ rs' → one_record_each rs → one_record_each rs'.
Proof.
  intros Hperm [Hnd Hids]. split.
  - by rewrite <- Hperm.
  - intros r Hr. apply Hids. by rewrite Hperm.
Qed.

Lemma own_records_perm rs rs' k :
  rs ≡ₚ rs' → one_record_each rs → own_records rs' k = own_records rs k.
Proof.
  intros Hperm Hone.
  assert (own_records rs k ≡ₚ own_records rs' k) as Hown
    by (unfold own_records; by rewrite Hperm).
  destruct (one_record_each_own_records rs k Hone) as [Hnil|(r & _ & Hr)].
  - rewrite Hnil in Hown |- *. by apply Permutation_nil_l in Hown.
  - rewrite Hr in Hown |- *. by apply Permutation_singleton_l in Hown.
Qed.
End permutation.

(** X6: when every company has one record and a non-empty id, the order of
    the records matters only for the order of the children: a permutation of
    the stream gives a graph with the same keys and, at every key, the same
    id, name and parent, and the same children up to their order. *)
Theorem graph_of_permuted_stream (rs rs' : list company_relation.t)
    (k : string) :
  one_record_each rs → rs ≡ₚ rs' →
  match relations_of rs !! k, relations_of rs' !! k with
  | Some c, Some c' =>
      Company.id c' = Company.id c ∧ Company.name c' = Company.name c ∧
      Company.parent_id c' = Company.parent_id c ∧
      Company.children_ids c' ≡ₚ Company.children_ids c
  | None, None => True
  | _, _ => False
  end.
Proof.
  intros Hone Hperm.
  pose proof (one_record_each_perm _ _ Hperm Hone) as Hone'.
  destruct (relations_of rs !! k) as [c|] eqn:Hc;
    destruct (relations_of rs' !! k) as [c'|] eqn:Hc'.
  - assert (k ≠ "") as Hne.
    { intros ->. by rewrite one_record_each_empty_absent in Hc. }
    rewrite (inv_id _ _ (relations_of_inv rs) _ _ Hc).
    rewrite (inv_id _ _ (relations_of_inv rs') _ _ Hc').
    rewrite (inv_children _ _ (relations_of_inv rs) _ _ Hne Hc).
    rewrite (inv_children _ _ (relations_of_inv rs') _ _ Hne Hc').
    pose proof (inv_own _ _ (relations_of_inv rs) _ _ Hc) as Hown.
    pose proof (inv_own _ _ (relations_of_inv rs') _ _ Hc') as Hown'.
    rewrite (own_records_perm rs rs' k Hperm Hone) in Hown'.
    split; [done|].
    destruct (last (own_records rs k)); destruct Hown as [-> ->];
      destruct Hown' as [-> ->]; (split; [done|]); (split; [done|]);
      unfold child_records; by rewrite Hperm.
  - assert (is_Some (relations_of rs' !! k)) as [? ?]; [|congruence].
    apply relations_of_present. rewrite <- Hperm.
    apply relations_of_present. by rewrite Hc.
  - assert (is_Some (relations_of rs !! k)) as [? ?]; [|congruence].
    apply relations_of_present. rewrite Hperm.
    apply relations_of_present. by rewrite Hc'.
  - done.
Qed.

Lemma graph_of_permuted_stream_witness :
  match relations_of sample_relations !! "R1",
        relations_of (reverse sample_relations) !! "R1" with
  | Some c, Some c' =>
      Company.id c' = Company.id c ∧ Company.name c' = Company.name c ∧
      Company.parent_id c' = Company.parent_id c ∧
      Company.children_ids c' ≡ₚ Company.children_ids c
  | None, None => True
  | _, _ => False
  end.
Proof.
  apply (graph_of_permuted_stream sample_relations (reverse sample_relations)).
  - exact sample_relations_one_record_each.
  - symmetry. apply reverse_Permutation.
Defined.

(** ** The root resolver, again *)

Section ancestors.
Context (g : gmap string Company.t).
Implicit Types (k r p : string) (c : Company.t).

Lemma get_root_ancestor fuel k r :
  get_root_company_id fuel k g = Ok r → ancestor g r k.
Proof.
  revert k. induction fuel as [|fuel IH]; intros k; [done|].
  rewrite get_root_unfold.
  destruct (g !! k) as [c|] eqn:Hk; [|done].
  destruct (Company.parent_id c) as [p|] eqn:Hp.
  - intros Hr. eapply ancestor_parent; [done..|by apply IH].
  - intros [= <-]. constructor.
Qed.

Lemma ancestor_get_root k r c :
  ancestor g r k → g !! r = Some c → Company.parent_id c = None →
  ∃ fuel, get_root_company_id fuel k g = Ok r.
Proof.
  intros Hanc Hr Hp. induction Hanc as [|k ck p Hk Hpk _ [fuel IH]].
  - exists 1. by rewrite get_root_unfold, Hr, Hp.
  - exists (S fuel). by rewrite get_root_unfold, Hk, Hpk.
Qed.
End ancestors.

(** X8: [get_root_company_id] returns [r] for [k], with some fuel, exactly
    when [r] is a company of the graph without parent that is reached from
    [k] along the parent links. *)
Theorem get_root_characterised (g : gmap string Company.t) (k r : string) :
  (∃ fuel, get_root_company_id fuel k g = Ok r) ↔
  ancestor g r k ∧ ∃ c, g !! r = Some c ∧ Company.parent_id c = None.
Proof.
  split.
  - intros [fuel Hr]. split.
    + by eapply get_root_ancestor.
    + by eapply get_root_is_root.
  - intros [Hanc (c & Hc & Hp)]. by eapply ancestor_get_root.
Qed.

Lemma get_root_characterised_witness :
  ancestor company_relations "A" "C" ∧
  ∃ c, company_relations !! "A" = Some c ∧ Company.parent_id c = None.
Proof.
  destruct (get_root_characterised company_relations "C" "A") as [Hto _].
  apply Hto. exists 3. vm_compute. reflexivity.
Defined.

(** ** The tree formatter, again *)

Section frame.
Local Arguments _format_node : simpl never.
Context (g : gmap string Company.t).
Implicit Types (idx : gmap string (list string)) (k x tgt : string).

Lemma format_node_same_counts (P : string → Prop) idx idx' fuel k tgt level :
  (∀ k c x, P k → g !! k = Some c → x ∈ Company.children_ids c → P x) →
  (∀ k, P k → length (default [] (idx !! k)) = length (default [] (idx' !! k))) →
  P k →
  _format_node fuel g idx k tgt level = _format_node fuel g idx' k tgt level.
Proof.
  intros Hclosed Hcount. revert k level.
  induction fuel as [|fuel IH]; intros k level Hk; [done|].
  rewrite !format_node_unfold. destruct (g !! k) as [c|] eqn:Hc; [|done].
  rewrite (Hcount k Hk).
  assert (∀ x, x ∈ Company.children_ids c → P x) as Hch by eauto.
  generalize ("", length (default [] (idx' !! k))).
  induction (Company.children_ids c) as [|y ys IHys]; intros [o n]; [done|].
  simpl. rewrite (IH y) by (apply Hch; left).
  destruct (_format_node fuel g idx' y tgt (level + 1)) as [[co cp]| |];
    simpl; [|done..].
  apply IHys. intros x Hx. apply Hch. by right.
Qed.

End frame.

(** X9: the text and the totals depend on the ownership index only through
    the number of parcels of the companies under the root: two indexes that
    give every such company as many parcels give the same result. *)
Theorem format_tree_depends_on_counts (g : gmap string Company.t)
    (idx idx' : gmap string (list string)) (fuel : nat) (root tgt : string) :
  (∀ d k, descends g root d k →
     length (default [] (idx !! k)) = length (default [] (idx' !! k))) →
  format_tree fuel g idx root tgt = format_tree fuel g idx' root tgt.
Proof.
  intros Hcount. unfold format_tree. f_equal.
  apply (format_node_same_counts g (λ k, ∃ d, descends g root d k)).
  - intros k c x [d Hd] Hk Hx. exists (S d). by econstructor.
  - intros k [d Hd]. by eapply Hcount.
  - exists 0. constructor.
Qed.

Lemma format_tree_depends_on_counts_witness :
  format_tree 3 company_relations company_land "A" "C" =
  format_tree 3 company_relations
    ((λ l : list string, (λ _ : string, "w") <$> l) <$> company_land) "A" "C".
Proof.
  apply (format_tree_depends_on_counts company_relations company_land
           ((λ l : list string, (λ _ : string, "w") <$> l) <$> company_land) 3 "A" "C").
  intros _ k _. rewrite lookup_fmap.
  destruct (company_land !! k) as [l|]; simpl; [|done].
  by rewrite length_fmap.
Defined.

(** ** Resolving the root and then formatting *)

Section root_then_format.
Context (g : gmap string Company.t).
Implicit Types (k r p x : string) (c : Company.t).

Lemma get_root_descends fuel k r :
  (∀ p x, parent_link g p x → child_link g x p) →
  get_root_company_id fuel k g = Ok r → ∃ d, descends g r d k.
Proof.
  intros Hagree. revert k.
  induction fuel as [|fuel IH]; intros k; [done|].
  rewrite get_root_unfold.
  destruct (g !! k) as [c|] eqn:Hk; [|done].
  destruct (Company.parent_id c) as [p|] eqn:Hp.
  - intros [d Hd]%IH.
    destruct (Hagree p k) as (cp & Hcp & Hin); [by exists c|].
    exists (S d). by econstructor.
  - intros [= <-]. exists 0. constructor.
Qed.

Lemma get_root_returns_on_closed fuel k :
  parents_closed g → is_Some (g !! k) →
  get_root_company_id fuel k g ≠ OutOfFuel →
  ∃ r, get_root_company_id fuel k g = Ok r.
Proof.
  intros Hclosed. revert k.
  induction fuel as [|fuel IH]; intros k [c Hk]; [done|].
  rewrite get_root_unfold, Hk.
  destruct (Company.parent_id c) as [p|] eqn:Hp; [|by eauto].
  apply IH. by eapply Hclosed.
Qed.

Lemma depth_is_key k n : depth_is g k n → is_Some (g !! k).
Proof. destruct 1; eauto. Qed.

Lemma depth_is_unique k n m : depth_is g k n → depth_is g k m → n = m.
Proof.
  intros Hn. revert m.
  induction Hn as [k c Hk Hp|k c p n Hk Hp _ IH]; intros m Hm;
    destruct Hm as [k c' Hk' Hp'|k c' p' m Hk' Hp' Hm]; simplify_eq; try done.
  f_equal. by apply IH.
Qed.

Lemma depth_exists k :
  parents_closed g → Acc (parent_link g) k → is_Some (g !! k) →
  ∃ n, depth_is g k n.
Proof.
  intros Hclosed. induction 1 as [k _ IH]. intros [c Hk].
  destruct (Company.parent_id c) as [p|] eqn:Hp.
  - destruct (IH p) as [n Hn]; [by exists c|by eapply Hclosed|].
    exists (S n). by econstructor.
  - exists 0. by econstructor.
Qed.

Lemma depth_bounded :
  parents_closed g → well_founded (parent_link g) →
  ∃ D, ∀ k n, depth_is g k n → n ≤ D.
Proof.
  intros Hclosed Hwf.
  assert (∀ l : list string, ∃ D, ∀ k n, k ∈ l → depth_is g k n → n ≤ D)
    as Hlist.
  { induction l as [|a l [D HD]].
    - exists 0. intros k n Hk. by apply elem_of_nil in Hk.
    - destruct (g !! a) as [c|] eqn:Ha.
      + destruct (depth_exists a Hclosed (Hwf a)) as [na Hna]; [by eauto|].
        exists (D `max` na). intros k n [->|Hk]%elem_of_cons Hn.
        * rewrite (depth_is_unique _ _ _ Hn Hna). lia.
        * specialize (HD k n Hk Hn). lia.
      + exists D. intros k n [->|Hk]%elem_of_cons Hn; [|by eauto].
        apply depth_is_key in Hn as [? ?]. congruence. }
  destruct (Hlist (elements (dom g))) as [D HD].
  exists D. intros k n Hn. apply (HD k n); [|done].
  apply elem_of_elements, elem_of_dom. by eapply depth_is_key.
Qed.

(** When the children are exactly the companies that have the node as
    parent, a graph without cycle of parents has no cycle of children. *)
Lemma children_acyclic_of_parents :
  (∀ x k, child_link g x k → parent_link g k x) →
  parents_closed g → well_founded (parent_link g) →
  well_founded (child_link g).
Proof.
  intros Hagree Hclosed Hwf.
  destruct (depth_bounded Hclosed Hwf) as [D HD].
  assert (∀ m k n, depth_is g k n → D - n ≤ m → Acc (child_link g) k)
    as Hacc.
  { induction m as [|m IH]; intros k n Hn Hm; constructor; intros x Hx.
    - destruct (Hagree x k Hx) as (cx & Hcx & Hpx).
      assert (depth_is g x (S n)) as Hsn by (by econstructor).
      apply HD in Hsn. apply HD in Hn. lia.
    - destruct (Hagree x k Hx) as (cx & Hcx & Hpx).
      assert (depth_is g x (S n)) as Hsn by (by econstructor).
      apply (IH x (S n) Hsn). apply HD in Hsn. lia. }
  intros k. destruct (g !! k) as [c|] eqn:Hk.
  - destruct (depth_exists k Hclosed (Hwf k)) as [n Hn]; [by eauto|].
    by apply (Hacc (D - n) k n).
  - constructor. intros x (c & Hc & _). congruence.
Qed.
End root_then_format.

Lemma relations_of_ranked (rs : list company_relation.t)
    (rank : string → nat) :
  (∀ r, r ∈ rs → company_relation.parent r ≠ "" →
     rank (company_relation.parent r) < rank (company_relation.company_id r)) →
  well_founded (parent_link (relations_of rs)).
Proof.
  intros Hrank. apply (ranked_parents_acyclic _ rank). intros k c p Hk Hp.
  destruct (relations_of_parent_record rs k c p Hk Hp)
    as (Hne & r & Hr & <- & <-).
  by apply Hrank.
Qed.

Lemma sample_relations_acyclic :
  well_founded (parent_link (relations_of sample_relations)).
Proof.
  apply (relations_of_ranked _ sample_rank). intros r Hr Hne.
  unfold sample_relations in Hr.
  repeat (apply elem_of_cons in Hr as [->|Hr]; [try done; vm_compute; lia|]).
  by apply elem_of_nil in Hr.
Qed.

(** X10: on the graph of any stream of records, the root that
    [get_root_company_id] returns for a company has that company under it,
    at some depth [d]; and a text that [format_tree] returns for this root
    has, at the start of a line, the block that [_format_node] returns for
    the company at level [d], which begins with the line of the company
    indented for depth [d]. *)
Theorem root_tree_shows_company (rs : list company_relation.t)
    (fuel : nat) (k r : string) :
  get_root_company_id fuel k (relations_of rs) = Ok r →
  ∃ d, descends (relations_of rs) r d k ∧
    ∀ fuel' idx tgt out,
      format_tree fuel' (relations_of rs) idx r tgt = Ok out →
      ∃ c total rest,
        relations_of rs !! k = Some c ∧
        _format_node fuel' (relations_of rs) idx k tgt d =
          Ok (line_of d c total +:+ newline +:+ rest, total) ∧
        at_line_start (line_of d c total +:+ newline +:+ rest) out.
Proof.
  intros Hr.
  destruct (get_root_descends (relations_of rs) fuel k r) as [d Hd];
    [apply relations_of_parent_is_child|done|].
  exists d. split; [done|]. intros fuel' idx tgt out Hout.
  unfold format_tree in Hout.
  destruct (_format_node fuel' (relations_of rs) idx r tgt 0)
    as [[o n]| |] eqn:Hres; [|done..].
  simpl in Hout. injection Hout as ->.
  destruct (format_node_descends_at _ idx _ _ _ _ _ _ _ Hres Hd)
    as (out_k & total_k & Hk & Hat).
  destruct (format_node_inv _ idx _ _ _ _ _ _ Hk)
    as (c & rs' & Hc & _ & _ & Hout_k).
  exists c, total_k, (str_concat (rs'.*1)).
  split; [done|]. rewrite <- Hout_k. done.
Qed.

Lemma root_tree_shows_company_witness :
  ∃ d, descends (relations_of sample_relations) "S1" d "C2" ∧
    ∀ fuel' idx tgt out,
      format_tree fuel' (relations_of sample_relations) idx "S1" tgt = Ok out →
      ∃ c total rest,
        relations_of sample_relations !! "C2" = Some c ∧
        _format_node fuel' (relations_of sample_relations) idx "C2" tgt d =
          Ok (line_of d c total +:+ newline +:+ rest, total) ∧
        at_line_start (line_of d c total +:+ newline +:+ rest) out.
Proof.
  apply (root_tree_shows_company sample_relations 2 "C2" "S1").
  vm_compute. reflexivity.
Defined.

(** X7: on the graph of any stream of records, started at a key of the
    graph, neither [get_root_company_id] nor [format_tree] raises
    [KeyError], since every parent and every child they look up is a key.
    So when the parent links from the key form no cycle the resolver
    returns a root, and when the children links from the key form no cycle
    the formatter returns a text, given enough fuel. *)
Theorem no_key_error_on_built_graph (rs : list company_relation.t)
    (idx : gmap string (list string)) (k tgt : string) :
  is_Some (relations_of rs !! k) →
  (∀ fuel,
     get_root_company_id fuel k (relations_of rs) ≠ Raise KeyError ∧
     format_tree fuel (relations_of rs) idx k tgt ≠ Raise KeyError)
  ∧ (Acc (parent_link (relations_of rs)) k →
     ∃ fuel0, ∀ fuel, fuel0 ≤ fuel →
       ∃ r, get_root_company_id fuel k (relations_of rs) = Ok r)
  ∧ (Acc (child_link (relations_of rs)) k →
     ∃ fuel0, ∀ fuel, fuel0 ≤ fuel →
       ∃ out, format_tree fuel (relations_of rs) idx k tgt = Ok out).
Proof.
  intros Hk. split; [|split].
  - intros fuel. split.
    + intros Hraise.
      destruct (get_root_returns_on_closed (relations_of rs) fuel k
                  (relations_of_parents_closed rs) Hk) as [r Hr];
        by rewrite Hraise in *.
    + unfold format_tree. intros Hraise.
      destruct (format_node_closed_returns (relations_of rs) idx fuel k tgt 0
                  (relations_of_children_closed rs) Hk) as [res Hres];
        destruct (_format_node fuel (relations_of rs) idx k tgt 0); done.
  - intros Hacc.
    destruct (get_root_terminates _ k Hacc) as [fuel0 Hfuel0].
    exists fuel0. intros fuel Hle.
    apply get_root_returns_on_closed;
      [apply relations_of_parents_closed|done|].
    by rewrite (get_root_mono fuel0).
  - intros Hacc.
    destruct (format_node_terminates (relations_of rs) idx k tgt Hacc)
      as [fuel0 Hfuel0].
    exists fuel0. intros fuel Hle.
    destruct (format_node_closed_returns (relations_of rs) idx fuel k tgt 0
                (relations_of_children_closed rs) Hk) as [[out total] Hres].
    { rewrite (format_node_mono _ _ fuel0); [apply Hfuel0|done|apply Hfuel0]. }
    exists out. unfold format_tree. by rewrite Hres.
Qed.

Lemma no_key_error_on_built_graph_witness :
  (∀ fuel,
     get_root_company_id fuel "C1" (relations_of sample_relations)
       ≠ Raise KeyError ∧
     format_tree fuel (relations_of sample_relations) (land_of sample_land)
       "C1" "C1" ≠ Raise KeyError)
  ∧ (∃ fuel0, ∀ fuel, fuel0 ≤ fuel →
       ∃ r, get_root_company_id fuel "C1" (relations_of sample_relations)
              = Ok r)
  ∧ (∃ fuel0, ∀ fuel, fuel0 ≤ fuel →
       ∃ out, format_tree fuel (relations_of sample_relations)
                (land_of sample_land) "C1" "C1" = Ok out).
Proof.
  destruct (no_key_error_on_built_graph sample_relations
              (land_of sample_land) "C1" "C1") as (Hno & Hroot & Htext).
  - vm_compute. eauto.
  - split; [exact Hno|]. split.
    + apply Hroot. exact (sample_relations_acyclic "C1").
    + apply Htext.
      exact (children_acyclic_of_parents (relations_of sample_relations)
               (λ x k, relations_of_child_is_parent sample_relations x k
                         sample_relations_one_record_each)
               (relations_of_parents_closed sample_relations)
               sample_relations_acyclic "C1").
Defined.

(** X11: when every company has one record and a non-empty id, a graph
    whose parent links have no cycle has no cycle of children either. *)
Theorem acyclic_parents_acyclic_children (rs : list company_relation.t) :
  one_record_each rs →
  well_founded (parent_link (relations_of rs)) →
  well_founded (child_link (relations_of rs)).
Proof.
  intros Hone Hwf. apply children_acyclic_of_parents.
  - intros x k. by apply relations_of_child_is_parent.
  - apply relations_of_parents_closed.
  - exact Hwf.
Qed.

Lemma acyclic_parents_acyclic_children_witness :
  well_founded (child_link (relations_of sample_relations)).
Proof.
  apply (acyclic_parents_acyclic_children sample_relations).
  - exact sample_relations_one_record_each.
  - exact sample_relations_acyclic.
Defined.

(** X12: the script, on files whose rows have the right number of fields,
    where every company has one row and a non-empty id and the parents form
    no cycle, asked for a company of the relations file: given enough fuel
    it prints a text, with or without [--from_root].  The text is the tree
    of the company itself without the option, and with it the tree of the
    company without parent that is above it; in both, the line of the
    company is in the text. *)
Theorem main_prints_company (rs : list company_relation.t)
    (ls : list company_land.t) (header1 header2 : list string)
    (k : string) (from_ : option string) :
  one_record_each rs →
  well_founded (parent_link (relations_of rs)) →
  is_Some (relations_of rs !! k) →
  ∃ fuel0 root d, ∀ fuel, fuel0 ≤ fuel →
    ∃ out c total,
      main fuel k from_ (header1 :: (fields <$> ls))
        (header2 :: (fields <$> rs)) = Ok out ∧
      format_tree fuel (relations_of rs) (land_of ls) root k = Ok out ∧
      (if decide (from_ = Some "root")
       then ancestor (relations_of rs) root k ∧
            ∃ cr, relations_of rs !! root = Some cr ∧
                  Company.parent_id cr = None
       else root = k) ∧
      descends (relations_of rs) root d k ∧
      relations_of rs !! k = Some c ∧
      block_in (line_of d c total +:+ newline) out.
Proof.
  intros Hone Hwf Hk.
  pose proof (acyclic_children := children_acyclic_of_parents
    (relations_of rs)
    (λ x k, relations_of_child_is_parent rs x k Hone)
    (relations_of_parents_closed rs) Hwf).
  (* the root, and the fuel that finds it *)
  assert (∃ fuel1 root,
    (∀ fuel, fuel1 ≤ fuel →
       (if decide (from_ = Some "root")
        then get_root_company_id fuel k (relations_of rs)
        else mret k) = Ok root) ∧
    (if decide (from_ = Some "root")
     then ancestor (relations_of rs) root k ∧
          ∃ cr, relations_of rs !! root = Some cr ∧
                Company.parent_id cr = None
     else root = k) ∧
    ∃ d, descends (relations_of rs) root d k)
    as (fuel1 & root & Hroot & Hkind & d & Hd).
  { destruct (decide (from_ = Some "root")) as [_|_].
    - destruct (get_root_terminates _ k (Hwf k)) as [fuel1 Hfuel1].
      destruct (get_root_returns_on_closed _ fuel1 k
                  (relations_of_parents_closed rs) Hk Hfuel1) as [root Hr].
      exists fuel1, root. split; [|split].
      + intros fuel Hle. rewrite (get_root_mono fuel1); done.
      + split; [by eapply get_root_ancestor|by eapply get_root_is_root].
      + eapply get_root_descends; [|done].
        apply relations_of_parent_is_child.
    - exists 0, k. split; [done|]. split; [done|]. exists 0. constructor. }
  (* the fuel that formats the tree of the root *)
  assert (is_Some (relations_of rs !! root)) as Hroot_key.
  { clear -Hd Hk. induction Hd as [|d k' c x _ IH Hk' Hx]; eauto. }
  destruct (format_node_terminates (relations_of rs) (land_of ls) root k
              (acyclic_children root)) as [fuel2 Hfuel2].
  exists (fuel1 `max` fuel2), root, d. intros fuel Hle.
  assert (_format_node fuel (relations_of rs) (land_of ls) root k 0
            ≠ OutOfFuel) as Hret.
  { rewrite (format_node_mono _ _ fuel2); [apply Hfuel2|lia|apply Hfuel2]. }
  destruct (format_node_closed_returns _ _ fuel root k 0
              (relations_of_children_closed rs) Hroot_key Hret)
    as [[out total_root] Hres].
  assert (format_tree fuel (relations_of rs) (land_of ls) root k = Ok out)
    as Hout by (unfold format_tree; by rewrite Hres).
  destruct (format_tree_blocks _ _ _ _ _ _ _ _ Hout Hd)
    as (c & rs' & total & Hc & _ & _ & _ & Hblock).
  exists out, c, total. split; [|split; [done|split; [done|]]].
  - unfold main.
    rewrite get_land_ownership_records, get_company_relations_records.
    simpl. rewrite Hroot by lia. done.
  - split; [done|]. split; [done|].
    eapply block_in_trans; [|exact Hblock].
    rewrite <- str_app_assoc. apply block_in_app_l, block_in_refl.
Qed.

Lemma main_prints_company_witness :
  ∃ fuel0 root d, ∀ fuel, fuel0 ≤ fuel →
    ∃ out c total,
      main fuel "C2" (Some "root")
        (["land_id"; "company_id"] :: (fields <$> sample_land))
        (["company_id"; "name"; "parent"] :: (fields <$> sample_relations))
        = Ok out ∧
      format_tree fuel (relations_of sample_relations) (land_of sample_land)
        root "C2" = Ok out ∧
      (if decide (Some "root" = Some "root")
       then ancestor (relations_of sample_relations) root "C2" ∧
            ∃ cr, relations_of sample_relations !! root = Some cr ∧
                  Company.parent_id cr = None
       else root = "C2") ∧
      descends (relations_of sample_relations) root d "C2" ∧
      relations_of sample_relations !! "C2" = Some c ∧
      block_in (line_of d c total +:+ newline) out.
Proof.
  apply (main_prints_company sample_relations sample_land).
  - exact sample_relations_one_record_each.
  - exact sample_relations_acyclic.
  - vm_compute. eauto.
Defined.

(** The script on the sample files. *)
Example main_on_samples :
  main 2 "C2" (Some "root")
    (["land_id"; "company_id"] :: (fields <$> sample_land))
    (["company_id"; "name"; "parent"] :: (fields <$> sample_relations))
  = Ok ("S1; Name4; owner of 0 land parcels" +:+ newline +:+
        "| - C2; Name2; owner of 0 land parcels" +:+ newline).
Proof. vm_compute. reflexivity. Qed.

(** ** More on the formatter and on cycles *)

Section more_formatter.
Local Arguments _format_node : simpl never.
Implicit Types (g : gmap string Company.t) (idx : gmap string (list string))
  (k x tgt : string).

Lemma format_node_same_graph (P : string → Prop) g g' idx fuel k tgt level :
  (∀ k c x, P k → g !! k = Some c → x ∈ Company.children_ids c → P x) →
  (∀ k, P k → g' !! k = g !! k) →
  P k →
  _format_node fuel g idx k tgt level = _format_node fuel g' idx k tgt level.
Proof.
  intros Hclosed Hsame. revert k level.
  induction fuel as [|fuel IH]; intros k level Hk; [done|].
  rewrite !format_node_unfold, (Hsame k Hk).
  destruct (g !! k) as [c|] eqn:Hc; [|done].
  assert (∀ x, x ∈ Company.children_ids c → P x) as Hch by eauto.
  generalize ("", length (default [] (idx !! k))).
  induction (Company.children_ids c) as [|y ys IHys]; intros [o n]; [done|].
  simpl. rewrite (IH y) by (apply Hch; left).
  destruct (_format_node fuel g' idx y tgt (level + 1)) as [[co cp]| |];
    simpl; [|done..].
  apply IHys. intros x Hx. apply Hch. by right.
Qed.

Lemma sum_list_lookup_le (l : list nat) i n : l !! i = Some n → n ≤ sum_list l.
Proof.
  revert i. induction l as [|a l IH]; intros [|i]; simpl; try done.
  - intros [= ->]. lia.
  - intros Hi. specialize (IH i Hi). lia.
Qed.

Lemma format_node_descends_total g idx fuel root tgt out total d k :
  _format_node fuel g idx root tgt 0 = Ok (out, total) →
  descends g root d k →
  ∃ out_k total_k, _format_node fuel g idx k tgt d = Ok (out_k, total_k) ∧
    total_k ≤ total.
Proof.
  intros Hroot. induction 1 as [|d k c x _ IH Hk Hx].
  - by exists out, total.
  - destruct IH as (out_k & total_k & Hfmt & Hle).
    apply format_node_inv in Hfmt as (c' & rs & Hk' & Hrs & -> & _).
    simplify_eq.
    apply list_elem_of_lookup in Hx as [i Hi].
    destruct (Forall2_lookup_l _ _ _ _ _ Hrs Hi) as ([ox nx] & Hr & Hfx).
    exists ox, nx. split; [by rewrite Nat.add_1_r in Hfx|].
    assert (nx ≤ sum_list (rs.*2)); [|lia].
    apply (sum_list_lookup_le _ i). by rewrite list_lookup_fmap, Hr.
Qed.

Lemma children_loop_out_of_fuel (F : string → result (string * nat))
    (xs : list string) st x :
  x ∈ xs → F x = OutOfFuel → (∀ y e, y ∈ xs → F y ≠ Raise e) →
  for_in (_format_node_child F) xs st = OutOfFuel.
Proof.
  intros Hx HFx. revert st.
  induction xs as [|y ys IH]; intros [o n] Hnoraise.
  - by apply elem_of_nil in Hx.
  - simpl. destruct (F y) as [[co cp]|e|] eqn:Hy; simpl.
    + apply elem_of_cons in Hx as [->|Hx]; [congruence|].
      apply IH; [done|]. intros z e Hz. apply Hnoraise. by right.
    + destruct (Hnoraise y e); [by left|done].
    + done.
Qed.
End more_formatter.

(** X13: the text depends on the graph only through the companies under
    the root: two graphs that have the same node at every such company give
    the same result. *)
Theorem format_tree_depends_on_subtree (g g' : gmap string Company.t)
    (idx : gmap string (list string)) (fuel : nat) (root tgt : string) :
  (∀ d k, descends g root d k → g' !! k = g !! k) →
  format_tree fuel g idx root tgt = format_tree fuel g' idx root tgt.
Proof.
  intros Hsame. unfold format_tree. f_equal.
  apply (format_node_same_graph (λ k, ∃ d, descends g root d k)).
  - intros k c x [d Hd] Hk Hx. exists (S d). by econstructor.
  - intros k [d Hd]. by eapply Hsame.
  - exists 0. constructor.
Qed.

(** X14: in the text of [format_tree], no company under the root is shown
    with more parcels than the root. *)
Theorem root_total_is_largest (g : gmap string Company.t)
    (idx : gmap string (list string)) (fuel : nat) (root tgt : string)
    (out : string) (total : nat) (d : nat) (k : string) :
  _format_node fuel g idx root tgt 0 = Ok (out, total) →
  descends g root d k →
  ∃ c total_k,
    g !! k = Some c ∧
    snd <$> _format_node fuel g idx k tgt d = Ok total_k ∧
    block_in (line_of d c total_k +:+ newline) out ∧
    total_k ≤ total.
Proof.
  intros Hroot Hd.
  destruct (format_node_descends_total _ _ _ _ _ _ _ _ _ Hroot Hd)
    as (out_k & total_k & Hk & Hle).
  assert (format_tree fuel g idx root tgt = Ok out) as Hout
    by (unfold format_tree; by rewrite Hroot).
  destruct (format_tree_blocks _ _ _ _ _ _ _ _ Hout Hd)
    as (c & rs & total' & Hc & _ & _ & Hk' & Hblock).
  rewrite Hk in Hk'. injection Hk' as _ <-.
  exists c, total_k. split; [done|]. split; [by rewrite Hk|]. split; [|done].
  eapply block_in_trans; [|exact Hblock].
  rewrite <- str_app_assoc. apply block_in_app_l, block_in_refl.
Qed.

Lemma format_tree_depends_on_subtree_witness :
  format_tree 3 company_relations company_land "A" "C" =
  format_tree 3 (delete "D" company_relations) company_land "A" "C".
Proof.
  apply (format_tree_depends_on_subtree company_relations
           (delete "D" company_relations) company_land 3 "A" "C").
  assert (∀ d k, descends company_relations "A" d k →
                 k = "A" ∨ k = "B" ∨ k = "C") as Hunder.
  { induction 1 as [|d k c x _ IH Hk Hx]; [by left|].
    destruct IH as [-> | [-> | ->]]; vm_compute in Hk; injection Hk as <-;
      all_elements Hx; auto. }
  intros d k Hd. apply lookup_delete_ne.
  destruct (Hunder d k Hd) as [-> | [-> | ->]]; discriminate.
Defined.

Lemma root_total_is_largest_witness :
  ∃ c total_k,
    company_relations !! "C" = Some c ∧
    snd <$> _format_node 3 company_relations company_land "C" "C" 2
      = Ok total_k ∧
    block_in (line_of 2 c total_k +:+ newline)
      ("A; Company A; owner of 3 land parcels" +:+ newline +:+
       "| - B; Company B; owner of 2 land parcels" +:+ newline +:+
       "| | - C; Company C; owner of 2 land parcels" +:+ newline) ∧
    total_k ≤ 3.
Proof.
  apply (root_total_is_largest company_relations company_land 3 "A" "C").
  - vm_compute. reflexivity.
  - eapply descends_child;
      [eapply descends_child; [apply descends_root| |]| |].
    + vm_compute. reflexivity.
    + left.
    + vm_compute. reflexivity.
    + left.
Defined.

Section self_parent.
Local Arguments _format_node : simpl never.

Lemma format_node_no_raise (g : gmap string Company.t)
    (idx : gmap string (list string)) fuel k tgt level e :
  children_closed g → is_Some (g !! k) →
  _format_node fuel g idx k tgt level ≠ Raise e.
Proof.
  intros Hclosed Hk Hres.
  destruct (format_node_closed_returns g idx fuel k tgt level Hclosed Hk)
    as [res Hres']; by rewrite Hres in *.
Qed.
End self_parent.

(** X15: nothing stops a record from naming its own company as parent;
    when the last record of a company does, the company is its own parent
    and its own child in the graph, and neither [get_root_company_id] nor
    [_format_node] returns for it, whatever the fuel. *)
Theorem self_parent_record_never_returns (pre post : list company_relation.t)
    (r : company_relation.t) :
  company_relation.parent r = company_relation.company_id r →
  company_relation.company_id r ≠ "" →
  company_relation.company_id r ∉ company_relation.company_id <$> post →
  let g := relations_of (pre ++ r :: post) in
  let k := company_relation.company_id r in
  parent_link g k k ∧ child_link g k k ∧
  ∀ fuel idx tgt level,
    get_root_company_id fuel k g = OutOfFuel ∧
    _format_node fuel g idx k tgt level = OutOfFuel.
Proof.
  intros Hself Hne Hpost g k.
  assert (parent_link g k k) as Hpar.
  { destruct (own_record_wins pre r post Hpost) as (c & Hc & _ & Hp).
    exists c. split; [done|].
    rewrite Hp, Hself. by apply parent_id_value_of_nonempty. }
  assert (child_link g k k) as Hch by by apply relations_of_parent_is_child.
  split; [done|]. split; [done|].
  intros fuel idx tgt level. split.
  - destruct Hpar as (c & Hc & Hp).
    induction fuel as [|fuel IH]; [done|].
    by rewrite get_root_unfold, Hc, Hp.
  - destruct Hch as (c & Hc & Hin). revert level.
    induction fuel as [|fuel IH]; intros level; [done|].
    rewrite format_node_unfold, Hc.
    rewrite (children_loop_out_of_fuel _ _ _ k); [done|done|apply IH|].
    intros y e Hy. apply format_node_no_raise.
    + apply relations_of_children_closed.
    + by eapply relations_of_children_closed.
Qed.

Lemma self_parent_record_never_returns_witness :
  let g := relations_of
             [company_relation.mk "A" "Company A" "A";
              company_relation.mk "B" "Company B" "A"] in
  parent_link g "A" "A" ∧ child_link g "A" "A" ∧
  ∀ fuel idx tgt level,
    get_root_company_id fuel "A" g = OutOfFuel ∧
    _format_node fuel g idx "A" tgt level = OutOfFuel.
Proof.
  apply (self_parent_record_never_returns []
           [company_relation.mk "B" "Company B" "A"]
           (company_relation.mk "A" "Company A" "A")).
  - reflexivity.
  - discriminate.
  - simpl. intros H.
    repeat (apply elem_of_cons in H as [H|H]; [discriminate|]).
    by apply elem_of_nil in H.
Defined.

(** ** Counting the parcels of the index *)

Section counting.
Implicit Types (m : gmap string (list string)) (rs : list company_land.t).

Lemma parcels_insert m k (l : list string) :
  sum_list_with (λ kv, length kv.2) (map_to_list (<[k:=l]> m))
    + length (default [] (m !! k))
  = sum_list_with (λ kv, length kv.2) (map_to_list m) + length l.
Proof.
  destruct (m !! k) as [v|] eqn:Hk; simpl.
  - rewrite <- (insert_delete_eq m), map_to_list_insert
      by apply lookup_delete_eq.
    rewrite <- (map_to_list_delete m k v Hk). simpl. lia.
  - rewrite map_to_list_insert by done. simpl. lia.
Qed.
End counting.

(** X16: every row of the land file is counted once: the lists of the
    ownership index have together as many land ids as the file has rows
    after the header. *)
Theorem land_index_counts_rows (header : list string)
    (rs : list company_land.t) :
  ∃ idx, get_land_ownership (header :: (fields <$> rs)) = Ok idx ∧
    sum_list_with (λ kv, length kv.2) (map_to_list idx) = length rs.
Proof.
  exists (land_of rs). split; [apply get_land_ownership_records|].
  induction rs as [|r rs IH] using rev_ind; [done|].
  rewrite land_of_snoc, length_app. unfold get_land_ownership_body.
  pose proof (parcels_insert (land_of rs) (company_land.company_id r)
    (default [] (land_of rs !! company_land.company_id r)
       ++ [company_land.land_id r])) as Hins.
  rewrite length_app in Hins. simpl in *. lia.
Qed.

(** ** The failures of the script *)

(** X17: the script reads the land file first, so an exception of
    [get_land_ownership] is the exception of the script whatever the
    relations file is; then an exception of [get_company_relations] is; and
    on well-formed files, asked for a company that the relations file does
    not mention, the script raises [KeyError], with or without
    [--from_root]. *)
Theorem main_failures (fuel : nat) (company_id : string)
    (from_ : option string) (land_file relations_file : list (list string)) :
  (∀ e, get_land_ownership land_file = Raise e →
     main fuel company_id from_ land_file relations_file = Raise e)
  ∧ (∀ idx e, get_land_ownership land_file = Ok idx →
       get_company_relations relations_file = Raise e →
       main fuel company_id from_ land_file relations_file = Raise e)
  ∧ (∀ idx g, get_land_ownership land_file = Ok idx →
       get_company_relations relations_file = Ok g →
       g !! company_id = None →
       main (S fuel) company_id from_ land_file relations_file
         = Raise KeyError).
Proof.
  unfold main. split; [|split].
  - by intros e ->.
  - by intros idx e -> ->.
  - intros idx g -> -> Hk. simpl.
    destruct (decide (from_ = Some "root")); simpl.
    + by rewrite (getitem_None _ _ Hk).
    + unfold format_tree. simpl. by rewrite (getitem_None _ _ Hk).
Qed.

Lemma main_failures_witness :
  main 1 "C2" None [] [["company_id"; "name"; "parent"]; ["C2"]]
    = Raise StopIteration
  ∧ main 1 "C2" None [["land_id"; "company_id"]]
      [["company_id"; "name"; "parent"]; ["C2"]] = Raise TypeError
  ∧ main 1 "T1" (Some "root") [["land_id"; "company_id"]; ["T1"; "C2"]]
      [["company_id"; "name"; "parent"]; ["C2"; "Name2"; ""]]
      = Raise KeyError.
Proof.
  split; [|split].
  - apply (main_failures 1 "C2" None []
             [["company_id"; "name"; "parent"]; ["C2"]]).
    reflexivity.
  - apply (main_failures 1 "C2" None [["land_id"; "company_id"]]
             [["company_id"; "name"; "parent"]; ["C2"]]) with (idx := ∅);
      reflexivity.
  - apply (main_failures 0 "T1" (Some "root")
             [["land_id"; "company_id"]; ["T1"; "C2"]]
             [["company_id"; "name"; "parent"]; ["C2"; "Name2"; ""]])
      with (idx := <["C2" := ["T1"]]> ∅)
           (g := <["C2" := Company.mk "C2" None (Some "Name2") []]> ∅);
      vm_compute; reflexivity.
Defined.
